(** * pump_watcher: the sump pump monitor and its random sample generator

    A shallow embedding of [pump_watcher.py]:
    - [AbstractPump] with its [event] callback, [get_status] and
      [add_listener] (module [Pump]);
    - [gen_random_event], [gen_mainly_on], [gen_mainly_off] and
      [gen_random_samples] (module [Samples]).

    Statuses are Python integers and are kept as [Z]; [prev_status], which
    starts as [None], is an [option Z]. *)

From Stdlib Require Import ZArith QArith List Bool Lia Lqa Sorted.
From Stdlib Require Strings.String.
Import ListNotations.
Open Scope Z_scope.

(** Module-level constants of the source. *)
Definition PUMP_ON : Z := 1.
Definition PUMP_OFF : Z := 0.

Module Pump.

(** ** Loggers

    A logger is an object with a [log] method.  The loggers themselves live
    in another module; what [event] can observe of a call [l.log(values)] is
    only whether it returns or raises.  A logger is therefore a name together
    with the decision to raise, which may depend on every call made so far
    (a transport that fails once and then recovers) and on the values. *)

Record Call : Type := mkCall { call_logger : nat; call_values : list Z }.

Record Logger : Type := mkLogger {
  logger_id : nat;
  log_raises : list Call -> list Z -> bool
}.

(** An entry of [self.loggers] is tested with [if l:]; a falsy entry (such as
    [None]) is [None] here, a logger object is [Some l]. *)
Record AbstractPump : Type := mkPump {
  loggers : list (option Logger);
  pin : Z;
  prev_status : option Z
}.

(** [AbstractPump.__init__] *)
Definition init (pin : Z) : AbstractPump :=
  {| loggers := []; pin := pin; prev_status := None |}.

(** [AbstractPump.get_status]: the default implementation, always -1. *)
Definition get_status (_pin : Z) : Z := -1.

(** [AbstractPump.add_listener]: [self.loggers.append(new_logger)]. *)
Definition add_listener (self : AbstractPump) (new_logger : option Logger)
  : AbstractPump :=
  {| loggers := loggers self ++ [new_logger];
     pin := pin self;
     prev_status := prev_status self |}.

(** [status == self.prev_status], an integer against an integer or [None]. *)
Definition status_eqb (status : Z) (prev : option Z) : bool :=
  match prev with
  | Some p => status =? p
  | None => false
  end.

(** The loop [for l in self.loggers: if l: l.log([status])].  The calls made
    are appended to [trace]; the boolean tells whether a call raised, which
    ends the loop there. *)
Fixpoint fan_out (ls : list (option Logger)) (status : Z) (trace : list Call)
  : list Call * bool :=
  match ls with
  | [] => (trace, false)
  | None :: ls' => fan_out ls' status trace
  | Some l :: ls' =>
      let trace' := trace ++ [mkCall (logger_id l) [status]] in
      if log_raises l trace [status] then (trace', true)
      else fan_out ls' status trace'
  end.

(** How one call of [event] ends: the early [return], the end of the body
    after the loop, or an exception of a logger leaving [event]. *)
Inductive Outcome : Type := Skipped | Notified | Raised.

Record Result : Type := mkResult {
  pump : AbstractPump;
  calls : list Call;
  outcome : Outcome
}.

(** [AbstractPump.event].  [status] is what [self.get_status(self.pin)]
    returned in this call (subclasses override [get_status] to read the pin);
    the two [print]s are not modelled.  [self.prev_status = status] stands
    after the loop, so it is not reached when a logger raises. *)
Definition event (self : AbstractPump) (status : Z) (trace : list Call)
  : Result :=
  if status_eqb status (prev_status self) then
    {| pump := self; calls := trace; outcome := Skipped |}
  else
    match fan_out (loggers self) status trace with
    | (trace', true) =>
        {| pump := self; calls := trace'; outcome := Raised |}
    | (trace', false) =>
        {| pump := {| loggers := loggers self;
                      pin := pin self;
                      prev_status := Some status |};
           calls := trace';
           outcome := Notified |}
    end.

(** [event] on the class as it is, without hardware: the status is
    [get_status]'s -1. *)
Definition event_default (self : AbstractPump) (trace : list Call) : Result :=
  event self (get_status (pin self)) trace.

(** The callback invoked once per reading, by the GPIO library, in order. *)
Record Run : Type := mkRun {
  final : AbstractPump;
  log : list Call;
  steps : list (Z * Outcome)
}.

Fixpoint run (self : AbstractPump) (readings : list Z) (trace : list Call)
  : Run :=
  match readings with
  | [] => {| final := self; log := trace; steps := [] |}
  | status :: rest =>
      let r := event self status trace in
      let rr := run (pump r) rest (calls r) in
      {| final := final rr;
         log := log rr;
         steps := (status, outcome r) :: steps rr |}
  end.

(** Registration of a list of loggers, as the main program does. *)
Definition register_all (self : AbstractPump) (ls : list (option Logger))
  : AbstractPump :=
  fold_left add_listener ls self.

(** *** Vocabulary of the properties *)

(** The calls in which the loop over the loggers was entered. *)
Definition entered (o : Outcome) : bool :=
  match o with Skipped => false | _ => true end.

Definition passes (rr : Run) : list (Z * Outcome) :=
  filter (fun so => entered (snd so)) (steps rr).

Definition fanned_states (rr : Run) : list Z := map fst (passes rr).

(** Number of indices [i] with [s_i <> s_(i-1)], [prev] standing for
    [s_0] ([None]: undefined). *)
Fixpoint count_changes (prev : option Z) (ss : list Z) : nat :=
  match ss with
  | [] => 0
  | s :: rest =>
      ((if status_eqb s prev then 0 else 1) + count_changes (Some s) rest)%nat
  end.

Fixpoint no_adjacent_dup (l : list Z) : Prop :=
  match l with
  | a :: (b :: _) as t => a <> b /\ no_adjacent_dup t
  | _ => True
  end.

(** The loggers that are objects, in list order. *)
Fixpoint present (ls : list (option Logger)) : list Logger :=
  match ls with
  | [] => []
  | Some l :: ls' => l :: present ls'
  | None :: ls' => present ls'
  end.

Definition delivery (status : Z) (l : Logger) : Call :=
  mkCall (logger_id l) [status].

(** Every [log] of the list returns normally, whatever happened before. *)
Definition never_raise (ls : list (option Logger)) : Prop :=
  forall l, In (Some l) ls -> forall t v, log_raises l t v = false.

(** A run in which no call of [event] is left by an exception. *)
Definition normal (rr : Run) : Prop :=
  Forall (fun so => snd so <> Raised) (steps rr).

(** Number of calls made to the logger named [i]. *)
Definition calls_to (i : nat) (t : list Call) : nat :=
  length (filter (fun c => Nat.eqb (call_logger c) i) t).

Definition registrations_of (i : nat) (ls : list (option Logger)) : nat :=
  length (filter (fun l => Nat.eqb (logger_id l) i) (present ls)).

(** An inert reading, in the words of the specification: it has not
    changed the last-known state and has not started a fan-out. *)
Definition inert (self : AbstractPump) (trace : list Call) (r : Result) : Prop :=
  prev_status (pump r) = prev_status self /\
  calls r = trace /\
  outcome r = Skipped.

(** Two loggers for examples: one that always returns, one that always
    raises. *)
Definition quiet (i : nat) : Logger :=
  {| logger_id := i; log_raises := fun _ _ => false |}.

Definition broken (i : nat) : Logger :=
  {| logger_id := i; log_raises := fun _ _ => true |}.

(** A logger whose first call raises and whose later calls return. *)
Definition flaky (i : nat) : Logger :=
  {| logger_id := i;
     log_raises := fun t _ => Nat.eqb (calls_to i t) 0 |}.

(** The calls once the first [j] logger objects of [P] have been called
    in a pass that started at [trace]. *)
Definition trace_after (trace : list Call) (status : Z) (P : list Logger)
  (j : nat) : list Call :=
  trace ++ map (delivery status) (firstn j P).

(** The logger [l] at position [j] of [P] is the first to raise in a pass
    that started at [trace]: its call raises, and the calls of the loggers
    before it have returned. *)
Definition first_to_raise (P : list Logger) (status : Z) (trace : list Call)
  (j : nat) (l : Logger) : Prop :=
  nth_error P j = Some l /\
  log_raises l (trace_after trace status P j) [status] = true /\
  forall i l', (i < j)%nat -> nth_error P i = Some l' ->
               log_raises l' (trace_after trace status P i) [status] = false.

(** The callback fired [n] times on the class as it is, without hardware:
    every call reads [get_status(self.pin)]. *)
Definition run_default (self : AbstractPump) (n : nat) (trace : list Call)
  : Run :=
  run self (repeat (get_status (pin self)) n) trace.

End Pump.

Module Samples.

(** ** The random source

    [random.random()] is a draw [r] with [0 <= r < 1], taken as a rational;
    the literals 0.2 and 0.8 are read as the decimal numbers they denote.
    [random.randint(a, b)] is an integer [n] with [a <= n <= b], both ends
    included. *)

(** [gen_random_event], with the draw [r] of its [random.random()]. *)
Definition gen_random_event (threshold r : Q) : Z :=
  if Qle_bool threshold r then PUMP_ON else PUMP_OFF.

(** [gen_mainly_on] and [gen_mainly_off]. *)
Definition gen_mainly_on (r : Q) : Z := gen_random_event 0.2 r.
Definition gen_mainly_off (r : Q) : Z := gen_random_event 0.8 r.

(** An entry of [data]: [[timestamp, sample_id, event]] (the source appends
    a list for an ON entry and a tuple for an OFF entry, with the same three
    fields).  The timestamp is the instant [ts] in whole seconds; the source
    stores its rendering [%Y-%m-%d %H:%M:%S UTC], which shows these seconds.
    The end of the range of [datetime] (year 9999) is not modelled. *)
Record Sample : Type := mkSample {
  timestamp : Z;
  sample_no : Z;
  state : Z
}.

(** What the random source hands to one iteration of the [while] loop: the
    draw of [gen_mainly_on()], the [randint(0, 100 * 60)] read when that draw
    gives PUMP_ON, the draw of [gen_mainly_off()], and the
    [randint(0, 10 * 60)] read when that one gives PUMP_OFF. *)
Record Cycle : Type := mkCycle {
  on_draw : Q;
  on_delay : Z;
  off_draw : Q;
  off_delay : Z
}.

Definition valid_cycle (c : Cycle) : Prop :=
  (0 <= on_draw c /\ on_draw c < 1)%Q /\
  0 <= on_delay c <= 100 * 60 /\
  (0 <= off_draw c /\ off_draw c < 1)%Q /\
  0 <= off_delay c <= 10 * 60.

(** The local variables of [gen_random_samples]. *)
Record Vars : Type := mkVars {
  ts : Z;
  sample_id : Z;
  data : list Sample
}.

(** First half of the loop body: the PUMP_ON candidate. *)
Definition on_phase (c : Cycle) (v : Vars) : Vars :=
  let event := gen_mainly_on (on_draw c) in
  if event =? PUMP_ON then
    let ts' := ts v + (45 * 60 + on_delay c) in
    {| ts := ts';
       sample_id := sample_id v + 1;
       data := data v ++ [mkSample ts' (sample_id v) event] |}
  else v.

(** Second half of the loop body: the PUMP_OFF candidate. *)
Definition off_phase (c : Cycle) (v : Vars) : Vars :=
  let event := gen_mainly_off (off_draw c) in
  if event =? PUMP_OFF then
    let ts' := ts v + off_delay c in
    {| ts := ts';
       sample_id := sample_id v + 1;
       data := data v ++ [mkSample ts' (sample_id v) event] |}
  else v.

Definition cycle_step (c : Cycle) (v : Vars) : Vars :=
  off_phase c (on_phase c v).

(** [while sample_id <= length: ...].  The loop reads one [Cycle] per
    iteration; [None] means that the cycles given do not reach the end of
    the loop. *)
Fixpoint loop (length : Z) (tape : list Cycle) (v : Vars) {struct tape}
  : option Vars :=
  if sample_id v <=? length then
    match tape with
    | [] => None
    | c :: tape' => loop length tape' (cycle_step c v)
    end
  else Some v.

(** The slice [l[:stop]], also for a negative [stop]. *)
Definition slice_to {A : Type} (l : list A) (stop : Z) : list A :=
  if 0 <=? stop then firstn (Z.to_nat stop) l
  else firstn (Z.to_nat (Z.of_nat (List.length l) + stop)) l.

(** The variables before the loop: [data = []], [ts] the current instant,
    [sample_id = 1]. *)
Definition start (now : Z) : Vars :=
  {| ts := now; sample_id := 1; data := [] |}.

(** [gen_random_samples(length)], started at the instant [now]
    ([datetime.datetime.utcnow()]). *)
Definition gen_random_samples (length : Z) (now : Z) (tape : list Cycle)
  : option (list Sample) :=
  match loop length tape (start now) with
  | Some v => Some (slice_to (data v) length)
  | None => None
  end.

(** *** Vocabulary of the properties *)

(** Number of entries a cycle appends. *)
Definition appended (c : Cycle) : nat :=
  ((if Z.eqb (gen_mainly_on (on_draw c)) PUMP_ON then 1 else 0) +
   (if Z.eqb (gen_mainly_off (off_draw c)) PUMP_OFF then 1 else 0))%nat.

Fixpoint yield (tape : list Cycle) : nat :=
  match tape with
  | [] => 0
  | c :: tape' => (appended c + yield tape')%nat
  end.

(** The identifiers 1, 2, ..., n. *)
Definition ids_upto (n : nat) : list Z := map Z.of_nat (seq 1 n).

(** The time passed since the entry before (or since the start): what the
    code guarantees, in seconds. *)
Definition gap_ok (st gap : Z) : Prop :=
  if st =? PUMP_ON then 45 * 60 <= gap <= 45 * 60 + 100 * 60
  else 0 <= gap <= 10 * 60.

Fixpoint spaced (prev : Z) (l : list Sample) : Prop :=
  match l with
  | [] => True
  | e :: rest => gap_ok (state e) (timestamp e - prev) /\ spaced (timestamp e) rest
  end.

(** The instant of the last entry, [now] for an empty list. *)
Definition last_ts (now : Z) (l : list Sample) : Z :=
  last (map timestamp l) now.

(** Loop invariants: the counter is one more than the number of entries and
    the entries are numbered 1, 2, ...; the clock [ts] is the instant of the
    last entry and the entries are spaced as [gap_ok] says. *)
Definition Counted (v : Vars) : Prop :=
  sample_id v = 1 + Z.of_nat (List.length (data v)) /\
  map sample_no (data v) = ids_upto (List.length (data v)).

Definition Timed (now : Z) (v : Vars) : Prop :=
  ts v = last_ts now (data v) /\ spaced now (data v).

(** What appending one entry does to the variables: the clock moves by [d],
    the entry takes the counter, the counter moves by one. *)
Definition push (st d : Z) (v : Vars) : Vars :=
  {| ts := ts v + d;
     sample_id := sample_id v + 1;
     data := data v ++ [mkSample (ts v + d) (sample_id v) st] |}.

(** The dwell times in the words of the specification: an ON entry at least
    45 minutes after the entry before it (or the start), the extra delay in
    [0, 100) minutes; an OFF entry at a gap in [0, 10) minutes from the ON
    entry before it. *)
Fixpoint claimed_dwell (prev : Z) (last_on : option Z) (l : list Sample)
  : Prop :=
  match l with
  | [] => True
  | e :: rest =>
      (if state e =? PUMP_ON then
         45 * 60 <= timestamp e - prev /\
         0 <= timestamp e - prev - 45 * 60 < 100 * 60
       else
         match last_on with
         | Some t => 0 <= timestamp e - t < 10 * 60
         | None => True
         end) /\
      claimed_dwell (timestamp e)
        (if state e =? PUMP_ON then Some (timestamp e) else last_on) rest
  end.

(** Two entries next to each other with the same state. *)
Fixpoint has_repeat (l : list Sample) : Prop :=
  match l with
  | a :: (b :: _) as t => state a = state b \/ has_repeat t
  | _ => False
  end.

(** Draws and their measure: a set of draws that is an interval
    [lo <= r < hi] of [0, 1) has measure [hi - lo]. *)
Definition unit_draw (r : Q) : Prop := (0 <= r /\ r < 1)%Q.



(** An entry, and the variables of the loop, moved [d] seconds in time. *)
Definition shift (d : Z) (e : Sample) : Sample :=
  {| timestamp := timestamp e + d; sample_no := sample_no e; state := state e |}.

Definition shift_vars (d : Z) (v : Vars) : Vars :=
  {| ts := ts v + d; sample_id := sample_id v; data := map (shift d) (data v) |}.

End Samples.

Module Main.
Import Stdlib.Strings.String.
Local Open Scope string_scope.

(** ** The set-up of the main program

    What [parser.parse_args()] returns: the pin, and for each option its
    string or [None]. *)
Record Args : Type := mkArgs {
  gpio_pin : Z;
  thing_speak_api : option string;
  healthchecks_url : option string;
  gpio_lib : option string
}.

(** [if args.x:] for an option: [None] and the empty string are falsy. *)
Definition truthy (o : option string) : bool :=
  match o with
  | Some s => negb (String.eqb s "")
  | None => false
  end.

Definition text (o : option string) : string :=
  match o with Some s => s | None => "" end.

(** The values [argparse] lets through for [--gpio]: its [choices], or the
    default [None]. *)
Definition accepted_gpio_lib (o : option string) : Prop :=
  o = None \/ o = Some "RPi.GPIO" \/ o = Some "wiringpi".

(** The logger objects the main program creates. *)
Inductive LoggerObject : Type :=
| ThingSpeak (api_key : string)
| ConsoleLogger
| HealthChecks (url : string).

(** The list [all_loggers] after the two [if]s. *)
Definition all_loggers (args : Args) : list LoggerObject :=
  (if truthy (thing_speak_api args)
   then [ThingSpeak (text (thing_speak_api args))]
   else [ConsoleLogger])
  ++
  (if truthy (healthchecks_url args)
   then [HealthChecks (text (healthchecks_url args))]
   else []).

(** The pump monitor the main program creates; [None] is the [pump = None]
    that no branch has replaced. *)
Inductive PumpObject : Type :=
| RpiGpioPump (pin : Z)
| WiringPiPump (pin : Z)
| NoHardware (p : Pump.AbstractPump).

Definition create_pump (args : Args) : option PumpObject :=
  if truthy (gpio_lib args) then
    if String.eqb (text (gpio_lib args)) "RPi.GPIO" then
      Some (RpiGpioPump (gpio_pin args))
    else if String.eqb (text (gpio_lib args)) "wiringpi" then
      Some (WiringPiPump (gpio_pin args))
    else None
  else Some (NoHardware (Pump.init (gpio_pin args))).

Definition is_health_checks (l : LoggerObject) : bool :=
  match l with HealthChecks _ => true | _ => false end.

End Main.

(** * Properties of the monitor *)

Module PumpSpec.
Import Pump.

Lemma status_eqb_true (s : Z) (p : option Z) :
  status_eqb s p = true <-> p = Some s.
Proof.
  destruct p as [q|]; simpl.
  - rewrite Z.eqb_eq. split; intro H; [subst; reflexivity | congruence].
  - split; discriminate.
Qed.

Lemma status_eqb_false (s : Z) (p : option Z) :
  status_eqb s p = false <-> p <> Some s.
Proof.
  rewrite <- status_eqb_true. destruct (status_eqb s p); split; congruence.
Qed.

Lemma status_eqb_refl (s : Z) : status_eqb s (Some s) = true.
Proof. apply status_eqb_true. reflexivity. Qed.

Lemma never_raise_tail (x : option Logger) (ls : list (option Logger)) :
  never_raise (x :: ls) -> never_raise ls.
Proof. intros H l Hl. apply H. right. exact Hl. Qed.

Lemma present_app (l1 l2 : list (option Logger)) :
  present (l1 ++ l2) = present l1 ++ present l2.
Proof.
  induction l1 as [|[l|] l1 IH]; simpl; [reflexivity | f_equal; exact IH | exact IH].
Qed.

(** When no logger raises, the loop calls every logger object once, in list
    order, and ends normally. *)
Lemma fan_out_never_raise (ls : list (option Logger)) :
  never_raise ls ->
  forall status trace,
    fan_out ls status trace
    = (trace ++ map (delivery status) (present ls), false).
Proof.
  induction ls as [|[l|] ls IH]; intros Hnr status trace; simpl.
  - rewrite app_nil_r. reflexivity.
  - rewrite (Hnr l (or_introl eq_refl)).
    rewrite (IH (never_raise_tail _ _ Hnr)).
    rewrite <- app_assoc. reflexivity.
  - apply IH. exact (never_raise_tail _ _ Hnr).
Qed.

(** Whatever the loggers do, the calls of one pass are a prefix of the
    logger objects in list order, each handed [[status]]. *)
Lemma fan_out_prefix (ls : list (option Logger)) :
  forall status trace,
    exists k : nat,
      fst (fan_out ls status trace)
      = trace ++ map (delivery status) (firstn k (present ls)).
Proof.
  induction ls as [|[l|] ls IH]; intros status trace; simpl.
  - exists 0%nat. rewrite app_nil_r. reflexivity.
  - destruct (log_raises l trace [status]).
    + exists 1%nat. reflexivity.
    + destruct (IH status (trace ++ [mkCall (logger_id l) [status]])) as [k Hk].
      exists (S k). rewrite Hk. simpl. rewrite <- app_assoc. reflexivity.
  - apply IH.
Qed.

(** A falsy entry is not seen by the loop. *)
Lemma fan_out_skip_none (pre post : list (option Logger)) :
  forall status trace,
    fan_out (pre ++ None :: post) status trace
    = fan_out (pre ++ post) status trace.
Proof.
  induction pre as [|[l|] pre IH]; intros status trace; simpl.
  - reflexivity.
  - destruct (log_raises l trace [status]); [reflexivity | apply IH].
  - apply IH.
Qed.

Lemma event_loggers (self : AbstractPump) (status : Z) (trace : list Call) :
  loggers (pump (event self status trace)) = loggers self.
Proof.
  unfold event. destruct (status_eqb status (prev_status self)); [reflexivity|].
  destruct (fan_out (loggers self) status trace) as [t [|]]; reflexivity.
Qed.

Lemma event_same (self : AbstractPump) (status : Z) (trace : list Call) :
  prev_status self = Some status ->
  event self status trace
  = {| pump := self; calls := trace; outcome := Skipped |}.
Proof.
  intro H. unfold event. rewrite H, status_eqb_refl. reflexivity.
Qed.

Lemma event_change (self : AbstractPump) (status : Z) (trace : list Call) :
  prev_status self <> Some status ->
  never_raise (loggers self) ->
  event self status trace
  = {| pump := {| loggers := loggers self; pin := pin self;
                  prev_status := Some status |};
       calls := trace ++ map (delivery status) (present (loggers self));
       outcome := Notified |}.
Proof.
  intros H Hnr. unfold event.
  apply status_eqb_false in H. rewrite H.
  rewrite (fan_out_never_raise _ Hnr). reflexivity.
Qed.

Lemma event_entered (self : AbstractPump) (status : Z) (trace : list Call) :
  prev_status self <> Some status ->
  outcome (event self status trace) <> Skipped.
Proof.
  intro H. unfold event. apply status_eqb_false in H. rewrite H.
  destruct (fan_out (loggers self) status trace) as [t [|]]; discriminate.
Qed.

Lemma event_raised (self : AbstractPump) (status : Z) (trace : list Call) :
  outcome (event self status trace) = Raised ->
  pump (event self status trace) = self.
Proof.
  unfold event. destruct (status_eqb status (prev_status self)); [discriminate|].
  destruct (fan_out (loggers self) status trace) as [t [|]];
    [reflexivity | discriminate].
Qed.

Lemma event_notified (self : AbstractPump) (status : Z) (trace : list Call) :
  outcome (event self status trace) = Notified ->
  prev_status (pump (event self status trace)) = Some status.
Proof.
  unfold event. destruct (status_eqb status (prev_status self)); [discriminate|].
  destruct (fan_out (loggers self) status trace) as [t [|]];
    [discriminate | reflexivity].
Qed.

(** [event] sees of the logger list only what the loop does with it. *)
Lemma event_same_loop (self self' : AbstractPump) (status : Z) (trace : list Call) :
  prev_status self = prev_status self' ->
  fan_out (loggers self) status trace = fan_out (loggers self') status trace ->
  calls (event self status trace) = calls (event self' status trace) /\
  outcome (event self status trace) = outcome (event self' status trace) /\
  prev_status (pump (event self status trace))
  = prev_status (pump (event self' status trace)).
Proof.
  intros Hp Hf. unfold event. rewrite Hp, Hf.
  destruct (status_eqb status (prev_status self')); [auto|].
  destruct (fan_out (loggers self') status trace) as [t [|]]; auto.
Qed.

(** A loop that ends normally has called every logger object. *)
Lemma fan_out_returned (ls : list (option Logger)) :
  forall status trace trace',
    fan_out ls status trace = (trace', false) ->
    trace' = trace ++ map (delivery status) (present ls).
Proof.
  induction ls as [|[l|] ls IH]; intros status trace trace' H; simpl in H.
  - injection H as <-. rewrite app_nil_r. reflexivity.
  - destruct (log_raises l trace [status]); [discriminate H|].
    apply IH in H. subst trace'. simpl. rewrite <- app_assoc. reflexivity.
  - apply IH. exact H.
Qed.

Lemma event_returned (self : AbstractPump) (status : Z) (trace : list Call) :
  prev_status self <> Some status ->
  outcome (event self status trace) <> Raised ->
  event self status trace
  = {| pump := {| loggers := loggers self; pin := pin self;
                  prev_status := Some status |};
       calls := trace ++ map (delivery status) (present (loggers self));
       outcome := Notified |}.
Proof.
  intros H. unfold event. apply status_eqb_false in H. rewrite H.
  destruct (fan_out (loggers self) status trace) as [t [|]] eqn:E; simpl.
  - intro Hr. contradiction Hr. reflexivity.
  - intros _. apply fan_out_returned in E. subst t. reflexivity.
Qed.

Lemma normal_cons (self : AbstractPump) (s : Z) (rest : list Z) (trace : list Call) :
  normal (run self (s :: rest) trace) ->
  outcome (event self s trace) <> Raised /\
  normal (run (pump (event self s trace)) rest (calls (event self s trace))).
Proof.
  unfold normal. simpl. intro H. inversion H; subst. split; assumption.
Qed.

(** Loggers that never raise give a normal run. *)
Lemma never_raise_normal (readings : list Z) :
  forall self trace,
    never_raise (loggers self) -> normal (run self readings trace).
Proof.
  unfold normal.
  induction readings as [|s rest IH]; intros self trace Hnr; simpl.
  - constructor.
  - constructor.
    + simpl. unfold event.
      destruct (status_eqb s (prev_status self)); [discriminate|].
      rewrite (fan_out_never_raise _ Hnr). discriminate.
    + apply IH. rewrite event_loggers. exact Hnr.
Qed.

(** One call of [event] in a normal run: skipped, or notified to all. *)
Ltac run_step s self trace Hn :=
  let E := fresh "E" in
  let Ho := fresh "Ho" in
  apply normal_cons in Hn; destruct Hn as [Ho Hn];
  destruct (status_eqb s (prev_status self)) eqn:E;
  [ apply status_eqb_true in E;
    rewrite (event_same _ _ _ E) in *
  | apply status_eqb_false in E;
    rewrite (event_returned _ _ _ E Ho) in * ];
  cbn [pump calls outcome] in *.

(** In a normal run the passes are the changes. *)
Lemma run_passes (readings : list Z) :
  forall self trace,
    normal (run self readings trace) ->
    length (passes (run self readings trace))
    = count_changes (prev_status self) readings.
Proof.
  induction readings as [|s rest IH]; intros self trace Hn; [reflexivity|].
  unfold passes in *. cbn [run steps count_changes].
  run_step s self trace Hn; cbn [filter snd entered length].
  - rewrite (IH self trace Hn), E. reflexivity.
  - rewrite (IH _ _ Hn). reflexivity.
Qed.

Lemma run_fanned (readings : list Z) :
  forall self trace,
    normal (run self readings trace) ->
    no_adjacent_dup (fanned_states (run self readings trace)) /\
    (forall h t, fanned_states (run self readings trace) = h :: t ->
                 prev_status self <> Some h).
Proof.
  induction readings as [|s rest IH]; intros self trace Hn.
  - split; [exact I | discriminate].
  - unfold fanned_states, passes in *. cbn [run steps].
    run_step s self trace Hn; cbn [filter snd entered map fst].
    + apply IH. exact Hn.
    + destruct (IH _ _ Hn) as [Hdup Hhead].
      split.
      * match goal with
        | |- context [map fst ?l] => destruct (map fst l) as [|b t'] eqn:El
        end; [exact I|].
        split; [|exact Hdup].
        intro Hsb. apply (Hhead b t' eq_refl). simpl. congruence.
      * intros h t Hc. injection Hc as Hh _. subst h. exact E.
Qed.

(** The calls of a normal run: one round over the logger objects for each
    pass, with the state of that pass. *)
Lemma run_log (readings : list Z) :
  forall self trace,
    normal (run self readings trace) ->
    log (run self readings trace)
    = trace ++ flat_map (fun s => map (delivery s) (present (loggers self)))
                        (fanned_states (run self readings trace)).
Proof.
  induction readings as [|s rest IH]; intros self trace Hn.
  - simpl. rewrite app_nil_r. reflexivity.
  - unfold fanned_states, passes in *. cbn [run steps log].
    run_step s self trace Hn; cbn [filter snd entered map fst flat_map].
    + apply IH. exact Hn.
    + rewrite (IH _ _ Hn). cbn [loggers]. rewrite <- app_assoc. reflexivity.
Qed.

(** Readings of -1 leave a session that has seen nothing else without any
    other state; the first other reading is then a change. *)
Lemma run_first_known (us : list Z) :
  forall self trace s rest,
    normal (run self (us ++ s :: rest) trace) ->
    prev_status self = None \/ prev_status self = Some (-1) ->
    Forall (fun u => u = -1) us ->
    s <> -1 ->
    nth_error (steps (run self (us ++ s :: rest) trace)) (length us)
    = Some (s, Notified).
Proof.
  induction us as [|u us IH]; intros self trace s rest Hn Hp Hus Hs.
  - cbn [app length run steps nth_error].
    cbn [app] in Hn. apply normal_cons in Hn. destruct Hn as [Ho _].
    rewrite event_returned; [reflexivity | | exact Ho].
    destruct Hp as [Hp|Hp]; rewrite Hp; congruence.
  - inversion Hus as [|? ? Hu Hus']; subst.
    cbn [app length run steps nth_error].
    change ((-1 :: us) ++ s :: rest) with (-1 :: (us ++ s :: rest)) in Hn.
    apply normal_cons in Hn. destruct Hn as [Ho Hn].
    apply IH; try assumption.
    right. destruct Hp as [Hp|Hp].
    + rewrite event_returned; [reflexivity | rewrite Hp; discriminate | exact Ho].
    + rewrite (event_same _ _ _ Hp). exact Hp.
Qed.

Lemma register_all_loggers (ls : list (option Logger)) :
  forall self,
    loggers (register_all self ls) = loggers self ++ ls /\
    prev_status (register_all self ls) = prev_status self /\
    pin (register_all self ls) = pin self.
Proof.
  unfold register_all.
  induction ls as [|l ls IH]; intro self; simpl.
  - rewrite app_nil_r. auto.
  - destruct (IH (add_listener self l)) as (H1 & H2 & H3).
    rewrite H1, H2, H3. simpl. rewrite <- app_assoc. auto.
Qed.

Lemma calls_to_app (i : nat) (t1 t2 : list Call) :
  calls_to i (t1 ++ t2) = (calls_to i t1 + calls_to i t2)%nat.
Proof. unfold calls_to. rewrite filter_app, length_app. reflexivity. Qed.

Lemma calls_to_deliveries (i : nat) (status : Z) (l : list Logger) :
  calls_to i (map (delivery status) l)
  = length (filter (fun x => Nat.eqb (logger_id x) i) l).
Proof.
  unfold calls_to.
  induction l as [|x l IH]; simpl; [reflexivity|].
  destruct (Nat.eqb (logger_id x) i); simpl; rewrite IH; reflexivity.
Qed.

Ltac quiet_loggers :=
  let l := fresh "l" in
  let H := fresh "H" in
  intros l H; simpl in H;
  repeat (destruct H as [H|H]; [try discriminate H; injection H as <-; reflexivity|]);
  destruct H.

(** ** Where a pass ends *)

Lemma fan_out_present (ls : list (option Logger)) :
  forall status trace,
    fan_out ls status trace = fan_out (map Some (present ls)) status trace.
Proof.
  induction ls as [|[l|] ls IH]; intros status trace; simpl.
  - reflexivity.
  - destruct (log_raises l trace [status]); [reflexivity | apply IH].
  - apply IH.
Qed.

Lemma trace_after_0 (trace : list Call) (status : Z) (P : list Logger) :
  trace_after trace status P 0 = trace.
Proof. unfold trace_after. simpl. apply app_nil_r. Qed.

Lemma trace_after_cons (trace : list Call) (status : Z) (a : Logger)
  (P : list Logger) (j : nat) :
  trace_after trace status (a :: P) (S j)
  = trace_after (trace ++ [delivery status a]) status P j.
Proof. unfold trace_after. simpl. rewrite <- app_assoc. reflexivity. Qed.

Lemma first_to_raise_tail (a : Logger) (P : list Logger) (status : Z)
  (trace : list Call) (j : nat) (l : Logger) :
  first_to_raise (a :: P) status trace (S j) l <->
  log_raises a trace [status] = false /\
  first_to_raise P status (trace ++ [delivery status a]) j l.
Proof.
  unfold first_to_raise. split.
  - intros (Hn & Hr & Hb). split; [|split; [exact Hn| split]].
    + rewrite <- (trace_after_0 trace status (a :: P)).
      apply (Hb 0%nat a); [apply Nat.lt_0_succ | reflexivity].
    + rewrite <- trace_after_cons. exact Hr.
    + intros i l' Hi Hl'. rewrite <- trace_after_cons.
      apply (Hb (S i) l'); [apply -> Nat.succ_lt_mono; exact Hi | exact Hl'].
  - intros (Ha & Hn & Hr & Hb). split; [exact Hn | split].
    + rewrite trace_after_cons. exact Hr.
    + intros [|i] l' Hi Hl'.
      * injection Hl' as <-. rewrite trace_after_0. exact Ha.
      * rewrite trace_after_cons.
        apply (Hb i l'); [apply Nat.succ_lt_mono; exact Hi | exact Hl'].
Qed.

(** The loop stops at the first logger that raises: the loggers before it
    and this one have been called, no other. *)
Lemma fan_out_stops_at_first_raise (P : list Logger) :
  forall status trace j l,
    first_to_raise P status trace j l ->
    fan_out (map Some P) status trace
    = (trace_after trace status P (S j), true).
Proof.
  induction P as [|a P IH]; intros status trace j l H.
  - destruct H as (Hn & _). destruct j; discriminate Hn.
  - destruct j as [|j].
    + destruct H as (Hn & Hr & _). injection Hn as <-.
      rewrite trace_after_0 in Hr. cbn [map fan_out]. rewrite Hr.
      reflexivity.
    + apply first_to_raise_tail in H. destruct H as [Ha H].
      cbn [map fan_out]. rewrite Ha, trace_after_cons.
      apply (IH _ _ _ _ H).
Qed.

(** A loop left by an exception has a first logger that raised. *)
Lemma fan_out_raise_position (P : list Logger) :
  forall status trace trace',
    fan_out (map Some P) status trace = (trace', true) ->
    exists j l,
      first_to_raise P status trace j l /\
      trace' = trace_after trace status P (S j).
Proof.
  induction P as [|a P IH]; intros status trace trace' H; cbn [map fan_out] in H.
  - discriminate H.
  - destruct (log_raises a trace [status]) eqn:E.
    + injection H as <-. exists 0%nat, a. split; [|reflexivity].
      split; [reflexivity|]. split.
      * rewrite trace_after_0. exact E.
      * intros i l' Hi. inversion Hi.
    + destruct (IH _ _ _ H) as (j & l & Hf & Ht).
      exists (S j), l. split.
      * apply first_to_raise_tail. split; assumption.
      * rewrite trace_after_cons. exact Ht.
Qed.

Lemma event_stops_at_first_raise
  (self : AbstractPump) (status : Z) (trace : list Call) (j : nat) (l : Logger) :
  prev_status self <> Some status ->
  first_to_raise (present (loggers self)) status trace j l ->
  outcome (event self status trace) = Raised /\
  calls (event self status trace)
  = trace_after trace status (present (loggers self)) (S j).
Proof.
  intros Hp Hf. unfold event. apply status_eqb_false in Hp. rewrite Hp.
  rewrite fan_out_present, (fan_out_stops_at_first_raise _ _ _ _ _ Hf).
  split; reflexivity.
Qed.

Lemma event_raise_position
  (self : AbstractPump) (status : Z) (trace : list Call) :
  outcome (event self status trace) = Raised ->
  exists j l,
    first_to_raise (present (loggers self)) status trace j l /\
    calls (event self status trace)
    = trace_after trace status (present (loggers self)) (S j).
Proof.
  unfold event.
  destruct (status_eqb status (prev_status self)); [discriminate|].
  rewrite fan_out_present.
  destruct (fan_out (map Some (present (loggers self))) status trace)
    as [t [|]] eqn:E; [|discriminate].
  intros _. exact (fan_out_raise_position _ _ _ _ E).
Qed.

(** ** The claims about the monitor *)

(** C1, as the code has it.  For a session that has observed nothing yet
    and a run in which no call of [event] is left by an exception of a
    logger, the calls of [event] for the readings [s1 ... sn] enter the loop
    over the loggers as many times as there are indices [i] with
    [s_i <> s_(i-1)], the first reading counting as a change; each pass hands
    its state to every logger object; no two passes in a row carry the same
    state; and the first reading other than -1 is notified. *)
Theorem no_duplicate_fan_out
  (self : AbstractPump) (readings : list Z) (trace : list Call) :
  prev_status self = None ->
  normal (run self readings trace) ->
  let rr := run self readings trace in
  length (passes rr) = count_changes None readings /\
  log rr = trace ++ flat_map (fun s => map (delivery s) (present (loggers self)))
                             (fanned_states rr) /\
  no_adjacent_dup (fanned_states rr) /\
  (forall us s rest,
      readings = us ++ s :: rest ->
      Forall (fun u => u = -1) us ->
      s <> -1 ->
      nth_error (steps rr) (length us) = Some (s, Notified)).
Proof.
  intros Hp Hn rr. subst rr. repeat split.
  - rewrite run_passes by exact Hn. rewrite Hp. reflexivity.
  - apply run_log. exact Hn.
  - apply run_fanned. exact Hn.
  - intros us s rest -> Hus Hs. apply run_first_known; auto.
Qed.

Lemma no_duplicate_fan_out_witness :
  let self := register_all (init 17) [Some (quiet 0); Some (quiet 1)] in
  let readings := [PUMP_ON; PUMP_ON; PUMP_OFF; PUMP_OFF; PUMP_ON] in
  prev_status self = None /\
  normal (run self readings []) /\
  length (passes (run self readings [])) = 3%nat /\
  fanned_states (run self readings []) = [PUMP_ON; PUMP_OFF; PUMP_ON] /\
  no_adjacent_dup (fanned_states (run self readings [])).
Proof.
  intros self readings.
  assert (Hp : prev_status self = None) by reflexivity.
  assert (Hn : normal (run self readings []))
    by (repeat constructor; discriminate).
  destruct (no_duplicate_fan_out self readings [] Hp Hn) as (H1 & _ & H3 & _).
  exact (conj Hp (conj Hn (conj H1 (conj eq_refl H3)))).
Defined.

(** C1 as stated fails when a logger raises: the status is then not stored,
    and the same reading again enters the loop again.  Two readings of ON,
    one change, two passes, both with ON. *)
Lemma two_passes_for_one_change :
  let self := register_all (init 17) [Some (quiet 0); Some (flaky 1)] in
  let rr := run self [PUMP_ON; PUMP_ON] [] in
  count_changes None [PUMP_ON; PUMP_ON] = 1%nat /\
  length (passes rr) = 2%nat /\
  fanned_states rr = [PUMP_ON; PUMP_ON] /\
  log rr = [mkCall 0 [PUMP_ON]; mkCall 1 [PUMP_ON];
            mkCall 0 [PUMP_ON]; mkCall 1 [PUMP_ON]] /\
  ~ no_adjacent_dup (fanned_states rr).
Proof.
  repeat split. intros [H _]. apply H. reflexivity.
Qed.

(** C2, as the code has it.  A reading of -1 is compared with
    [prev_status] like every other value.  It is skipped, with no call to a
    logger and no change of state, when [prev_status] is already -1;
    otherwise the loop over the loggers is entered with [[-1]], and when no
    logger raises every logger object is called and -1 becomes the
    last-known state. *)
Theorem unknown_reading_is_a_status (self : AbstractPump) (trace : list Call) :
  let r := event_default self trace in
  (prev_status self = Some (-1) ->
     r = {| pump := self; calls := trace; outcome := Skipped |}) /\
  (prev_status self <> Some (-1) ->
     outcome r <> Skipped /\
     (exists k, calls r = trace ++ map (delivery (-1))
                                       (firstn k (present (loggers self)))) /\
     (never_raise (loggers self) ->
        outcome r = Notified /\
        prev_status (pump r) = Some (-1) /\
        calls r = trace ++ map (delivery (-1)) (present (loggers self)))).
Proof.
  unfold event_default, get_status. split.
  - intro H. apply event_same. exact H.
  - intro H. repeat split.
    + unfold event. apply status_eqb_false in H. rewrite H.
      destruct (fan_out (loggers self) (-1) trace) as [t [|]]; discriminate.
    + destruct (fan_out_prefix (loggers self) (-1) trace) as [k Hk].
      unfold event. apply status_eqb_false in H. rewrite H.
      destruct (fan_out (loggers self) (-1) trace) as [t [|]];
        simpl in *; [exists k; exact Hk|exists k; exact Hk].
    + rewrite event_change by assumption. reflexivity.
    + rewrite event_change by assumption. reflexivity.
    + rewrite event_change by assumption. reflexivity.
Qed.

Lemma unknown_reading_is_a_status_witness :
  let self := {| loggers := [Some (quiet 0)]; pin := 17;
                 prev_status := Some PUMP_ON |} in
  prev_status self <> Some (-1) /\
  never_raise (loggers self) /\
  outcome (event_default self []) = Notified /\
  prev_status (pump (event_default self [])) = Some (-1) /\
  calls (event_default self []) = [mkCall 0 [-1]].
Proof.
  intro self.
  assert (Hp : prev_status self <> Some (-1)) by discriminate.
  assert (Hnr : never_raise (loggers self)) by (simpl; quiet_loggers).
  destruct (unknown_reading_is_a_status self []) as [_ H].
  destruct (H Hp) as (_ & _ & H3).
  destruct (H3 Hnr) as (H4 & H5 & H6).
  exact (conj Hp (conj Hnr (conj H4 (conj H5 H6)))).
Defined.

(** C2 as stated fails on a new session without hardware: the first call of
    [event] reads -1, hands [[-1]] to the logger and stores -1. *)
Lemma unknown_reading_not_inert :
  let self := add_listener (init 17) (Some (quiet 0)) in
  event_default self []
  = {| pump := {| loggers := [Some (quiet 0)]; pin := 17;
                  prev_status := Some (-1) |};
       calls := [mkCall 0 [-1]];
       outcome := Notified |} /\
  ~ inert self [] (event_default self []).
Proof.
  split; [reflexivity|].
  intros [H _]. discriminate H.
Qed.

(** C3, as the code has it.  On a change of status the assignment
    [self.prev_status = status] comes after the loop.  When a logger raises,
    [event] is left with the session unchanged, and the same status read
    again enters the loop again; when the loop ends normally the status is
    stored and the same status read again is skipped. *)
Theorem state_stored_after_the_loop
  (self : AbstractPump) (status : Z) (trace : list Call) :
  prev_status self <> Some status ->
  let r := event self status trace in
  outcome r <> Skipped /\
  (outcome r = Raised ->
     pump r = self /\
     forall t, outcome (event (pump r) status t) <> Skipped) /\
  (outcome r = Notified ->
     prev_status (pump r) = Some status /\
     forall t, event (pump r) status t
               = {| pump := pump r; calls := t; outcome := Skipped |}).
Proof.
  intros H r. subst r.
  split; [apply event_entered; exact H|].
  split; intro Ho.
  - rewrite (event_raised _ _ _ Ho).
    split; [reflexivity|]. intro t. apply event_entered. exact H.
  - pose proof (event_notified _ _ _ Ho) as Hs.
    split; [exact Hs|]. intro t. apply event_same. exact Hs.
Qed.

Lemma state_stored_after_the_loop_witness :
  let self := register_all (init 17) [Some (quiet 0); Some (broken 1)] in
  prev_status self <> Some PUMP_ON /\
  outcome (event self PUMP_ON []) = Raised /\
  pump (event self PUMP_ON []) = self /\
  outcome (event (pump (event self PUMP_ON [])) PUMP_ON
                 (calls (event self PUMP_ON []))) <> Skipped.
Proof.
  intro self.
  assert (Hp : prev_status self <> Some PUMP_ON) by discriminate.
  destruct (state_stored_after_the_loop self PUMP_ON [] Hp) as (_ & H & _).
  destruct (H eq_refl) as [H1 H2].
  exact (conj Hp (conj eq_refl (conj H1 (H2 _)))).
Defined.

(** C3 as stated fails: the second logger raises on its first call, the
    status is not stored, and the same reading once more is handed to both
    loggers again. *)
Lemma transition_reported_again_after_raise :
  let self := register_all (init 17) [Some (quiet 0); Some (flaky 1)] in
  let r1 := event self PUMP_ON [] in
  let r2 := event (pump r1) PUMP_ON (calls r1) in
  outcome r1 = Raised /\
  prev_status (pump r1) = None /\
  outcome r2 = Notified /\
  calls r2 = [mkCall 0 [PUMP_ON]; mkCall 1 [PUMP_ON];
              mkCall 0 [PUMP_ON]; mkCall 1 [PUMP_ON]] /\
  ~ (prev_status (pump r1) = Some PUMP_ON /\ outcome r2 = Skipped).
Proof.
  repeat split. intros [H _]. discriminate H.
Qed.

(** C4, as the code has it.  After the loggers [ls] have been registered
    with [add_listener], one after the other, a change of status calls the
    logger objects of the list in the order of registration, each with the
    one-element list [[status]].  The first logger to raise ends the pass:
    it and the loggers before it have been called, the loggers after it are
    not, and [event] is left by the exception; and a pass left by an
    exception ended in this way.  When [event] returns normally every
    logger object has been called once per registration, and so it is when
    no logger raises. *)
Theorem fan_out_in_registration_order
  (self : AbstractPump) (ls : list (option Logger))
  (status : Z) (trace : list Call) :
  let self' := register_all self ls in
  prev_status self' <> Some status ->
  let r := event self' status trace in
  loggers self' = loggers self ++ ls /\
  (exists k, calls r = trace ++ map (delivery status)
                                    (firstn k (present (loggers self ++ ls)))) /\
  (outcome r = Notified ->
     calls r = trace ++ map (delivery status) (present (loggers self ++ ls)) /\
     forall i, calls_to i (calls r)
               = (calls_to i trace + registrations_of i (loggers self'))%nat) /\
  (never_raise (loggers self') -> outcome r = Notified) /\
  (forall j l,
      first_to_raise (present (loggers self ++ ls)) status trace j l ->
      outcome r = Raised /\
      calls r = trace ++ map (delivery status)
                             (firstn (S j) (present (loggers self ++ ls)))) /\
  (outcome r = Raised ->
     exists j l,
       first_to_raise (present (loggers self ++ ls)) status trace j l /\
       calls r = trace ++ map (delivery status)
                              (firstn (S j) (present (loggers self ++ ls)))) /\
  outcome r <> Skipped.
Proof.
  intros self' Hp r. subst r.
  destruct (register_all_loggers ls self) as (Hl & _ & _).
  fold self' in Hl. clearbody self'.
  split; [exact Hl|]. rewrite <- Hl.
  split; [|split; [|split; [|split; [|split]]]].
  - destruct (fan_out_prefix (loggers self') status trace) as [k Hk].
    exists k. rewrite <- Hk. unfold event.
    apply status_eqb_false in Hp. rewrite Hp.
    destruct (fan_out (loggers self') status trace) as [t [|]]; reflexivity.
  - intro Ho.
    assert (Hr : outcome (event self' status trace) <> Raised)
      by (rewrite Ho; discriminate).
    rewrite (event_returned _ _ _ Hp Hr). cbn [calls].
    split; [reflexivity|].
    intro i. rewrite calls_to_app, calls_to_deliveries. reflexivity.
  - intro Hnr. rewrite (event_change _ _ _ Hp Hnr). reflexivity.
  - intros j l Hf. exact (event_stops_at_first_raise _ _ _ _ _ Hp Hf).
  - intro Ho. exact (event_raise_position _ _ _ Ho).
  - apply event_entered. exact Hp.
Qed.

Lemma fan_out_in_registration_order_witness :
  let a := quiet 7 in
  let b := quiet 3 in
  let self := register_all (init 17) [Some a; Some b; None; Some a] in
  let other := register_all (init 17)
                 [Some (quiet 0); Some (broken 1); Some (quiet 2)] in
  prev_status self <> Some PUMP_ON /\
  outcome (event self PUMP_ON []) = Notified /\
  calls (event self PUMP_ON [])
  = [mkCall 7 [PUMP_ON]; mkCall 3 [PUMP_ON]; mkCall 7 [PUMP_ON]] /\
  calls_to 7 (calls (event self PUMP_ON [])) = 2%nat /\
  first_to_raise [quiet 0; broken 1; quiet 2] PUMP_ON [] 1 (broken 1) /\
  outcome (event other PUMP_ON []) = Raised /\
  calls (event other PUMP_ON []) = [mkCall 0 [PUMP_ON]; mkCall 1 [PUMP_ON]].
Proof.
  intros a b self other.
  assert (Hp : prev_status self <> Some PUMP_ON) by discriminate.
  destruct (fan_out_in_registration_order (init 17)
              [Some a; Some b; None; Some a] PUMP_ON [] Hp)
    as (_ & _ & H & _).
  destruct (H eq_refl) as [H3 H4].
  assert (Hf : first_to_raise [quiet 0; broken 1; quiet 2] PUMP_ON [] 1
                              (broken 1)).
  { split; [reflexivity|]. split; [reflexivity|].
    intros [|i] l' Hi Hl'; [injection Hl' as <-; reflexivity | lia]. }
  assert (Hq : prev_status other <> Some PUMP_ON) by discriminate.
  destruct (fan_out_in_registration_order (init 17)
              [Some (quiet 0); Some (broken 1); Some (quiet 2)] PUMP_ON [] Hq)
    as (_ & _ & _ & _ & Hstop & _).
  destruct (Hstop 1%nat (broken 1) Hf) as [H5 H6].
  exact (conj Hp (conj eq_refl (conj H3 (conj (H4 7%nat)
           (conj Hf (conj H5 H6)))))).
Defined.

(** C4 as stated fails when a logger raises: the loggers after it in the
    list are not called. *)
Lemma loggers_after_a_raise_not_called :
  let self := register_all (init 17) [Some (broken 0); Some (quiet 1)] in
  let r := event self PUMP_ON [] in
  prev_status self <> Some PUMP_ON /\
  outcome r = Raised /\
  calls r = [mkCall 0 [PUMP_ON]] /\
  registrations_of 1 (loggers self) = 1%nat /\
  calls_to 1 (calls r) = 0%nat.
Proof.
  repeat split. discriminate.
Qed.

(** C5, as the code has it.  A falsy entry of the logger list changes
    nothing in a call of [event]: the calls made, the way [event] ends and
    the state stored are those of the list without the entry, whatever the
    other loggers do; the entry itself gets no call and raises nothing.  On
    a change of status the loop goes on past the entry: every other logger
    of the list has been called, in the order of the list, when [event]
    returns normally, as it does when no logger raises; when a logger
    raises, the loggers up to the first that raises have been called and
    the ones after it have not. *)
Theorem empty_logger_skipped
  (self : AbstractPump) (pre post : list (option Logger))
  (status : Z) (trace : list Call) :
  loggers self = pre ++ None :: post ->
  let without := {| loggers := pre ++ post; pin := pin self;
                    prev_status := prev_status self |} in
  let r := event self status trace in
  calls r = calls (event without status trace) /\
  outcome r = outcome (event without status trace) /\
  prev_status (pump r) = prev_status (pump (event without status trace)) /\
  fan_out [None] status trace = (trace, false) /\
  (prev_status self <> Some status ->
   never_raise (pre ++ post) ->
   outcome r = Notified /\
   calls r = trace ++ map (delivery status) (present pre ++ present post)) /\
  (prev_status self <> Some status ->
   outcome r = Notified ->
   calls r = trace ++ map (delivery status) (present pre ++ present post)) /\
  (prev_status self <> Some status ->
   forall j l,
     first_to_raise (present pre ++ present post) status trace j l ->
     outcome r = Raised /\
     calls r = trace ++ map (delivery status)
                            (firstn (S j) (present pre ++ present post))).
Proof.
  intros Hl without r. subst r.
  assert (Hsame : fan_out (loggers self) status trace
                  = fan_out (loggers without) status trace).
  { rewrite Hl. apply fan_out_skip_none. }
  destruct (event_same_loop self without status trace eq_refl Hsame)
    as (Hc & Ho & Hs).
  assert (HP : present (loggers without) = present pre ++ present post)
    by apply present_app.
  split; [exact Hc|]. split; [exact Ho|]. split; [exact Hs|].
  split; [reflexivity|].
  split; [|split].
  - intros Hp Hnr. rewrite Hc, Ho.
    rewrite (event_change without status trace Hp Hnr). simpl.
    rewrite present_app. split; reflexivity.
  - intros Hp Hn. rewrite Ho in Hn. rewrite Hc.
    assert (Hr : outcome (event without status trace) <> Raised)
      by (rewrite Hn; discriminate).
    rewrite (event_returned without status trace Hp Hr). cbn [calls].
    rewrite HP. reflexivity.
  - intros Hp j l Hf. rewrite Hc, Ho. rewrite <- HP in *.
    exact (event_stops_at_first_raise without status trace j l Hp Hf).
Qed.

Lemma empty_logger_skipped_witness :
  let self := {| loggers := [Some (quiet 0); None; Some (quiet 1)];
                 pin := 17; prev_status := Some PUMP_OFF |} in
  loggers self = [Some (quiet 0)] ++ None :: [Some (quiet 1)] /\
  prev_status self <> Some PUMP_ON /\
  never_raise ([Some (quiet 0)] ++ [Some (quiet 1)]) /\
  outcome (event self PUMP_ON []) = Notified /\
  calls (event self PUMP_ON []) = [mkCall 0 [PUMP_ON]; mkCall 1 [PUMP_ON]].
Proof.
  intro self.
  assert (Hp : prev_status self <> Some PUMP_ON) by discriminate.
  assert (Hnr : never_raise ([Some (quiet 0)] ++ [Some (quiet 1)]))
    by (simpl; quiet_loggers).
  destruct (empty_logger_skipped self [Some (quiet 0)] [Some (quiet 1)]
              PUMP_ON [] eq_refl) as (_ & _ & _ & _ & H & _).
  destruct (H Hp Hnr) as [H1 H2].
  exact (conj eq_refl (conj Hp (conj Hnr (conj H1 H2)))).
Defined.

(** C5 as stated fails when another logger raises: with a raising logger
    before the falsy entry, the logger after the entry is not called. *)
Lemma no_delivery_after_a_raise_with_empty_entry :
  let self := {| loggers := [Some (broken 0); None; Some (quiet 1)];
                 pin := 17; prev_status := None |} in
  let r := event self PUMP_ON [] in
  prev_status self <> Some PUMP_ON /\
  In (Some (quiet 1)) (loggers self) /\
  outcome r = Raised /\
  calls r = [mkCall 0 [PUMP_ON]] /\
  calls_to 1 (calls r) = 0%nat.
Proof.
  split; [discriminate|]. split; [right; right; left; reflexivity|].
  repeat split.
Qed.

End PumpSpec.

(** * Properties of the sample generator *)

Module SamplesSpec.
Import Samples.

(** ** The draws *)

Lemma gen_random_event_on (threshold r : Q) :
  gen_random_event threshold r = PUMP_ON <-> (threshold <= r)%Q.
Proof.
  unfold gen_random_event. rewrite <- Qle_bool_iff.
  destruct (Qle_bool threshold r); split; intro H;
    try reflexivity; discriminate H.
Qed.

Lemma gen_random_event_off (threshold r : Q) :
  gen_random_event threshold r = PUMP_OFF <-> (r < threshold)%Q.
Proof.
  unfold gen_random_event.
  destruct (Qle_bool threshold r) eqn:E.
  - apply Qle_bool_iff in E. split; intro H; [discriminate H | lra].
  - split; intro H; [|reflexivity].
    apply Qnot_le_lt. intro Hle. apply Qle_bool_iff in Hle. congruence.
Qed.

(** ** The measure of the accepted draws *)






(** ** The loop *)

Lemma ids_upto_snoc (n : nat) :
  ids_upto (S n) = ids_upto n ++ [1 + Z.of_nat n].
Proof.
  unfold ids_upto. rewrite seq_S, map_app. cbn [map].
  f_equal. f_equal. lia.
Qed.

Lemma last_nonempty (l : list Z) :
  forall x d d', last (x :: l) d = last (x :: l) d'.
Proof.
  induction l as [|y l IH]; intros x d d'; [reflexivity|].
  change (last (y :: l) d = last (y :: l) d'). apply IH.
Qed.

Lemma last_ts_snoc (now : Z) (l : list Sample) (e : Sample) :
  last_ts now (l ++ [e]) = timestamp e.
Proof. unfold last_ts. rewrite map_app. simpl. apply last_last. Qed.

Lemma spaced_snoc (l : list Sample) :
  forall prev e,
    spaced prev (l ++ [e]) <->
    spaced prev l /\ gap_ok (state e) (timestamp e - last_ts prev l).
Proof.
  induction l as [|a l IH]; intros prev e.
  - simpl. unfold last_ts. simpl. tauto.
  - change ((a :: l) ++ [e]) with (a :: (l ++ [e])).
    cbn [spaced]. rewrite IH.
    assert (Hl : last_ts prev (a :: l) = last_ts (timestamp a) l).
    { unfold last_ts. simpl. destruct (map timestamp l) eqn:E; [reflexivity|].
      apply last_nonempty. }
    rewrite Hl. tauto.
Qed.

Lemma on_phase_cases (c : Cycle) (v : Vars) :
  (gen_mainly_on (on_draw c) = PUMP_ON /\
   on_phase c v = push PUMP_ON (45 * 60 + on_delay c) v) \/
  (gen_mainly_on (on_draw c) <> PUMP_ON /\ on_phase c v = v).
Proof.
  unfold on_phase.
  destruct (gen_mainly_on (on_draw c) =? PUMP_ON) eqn:E.
  - apply Z.eqb_eq in E. left. rewrite E. split; reflexivity.
  - apply Z.eqb_neq in E. right. split; [exact E | reflexivity].
Qed.

Lemma off_phase_cases (c : Cycle) (v : Vars) :
  (gen_mainly_off (off_draw c) = PUMP_OFF /\
   off_phase c v = push PUMP_OFF (off_delay c) v) \/
  (gen_mainly_off (off_draw c) <> PUMP_OFF /\ off_phase c v = v).
Proof.
  unfold off_phase.
  destruct (gen_mainly_off (off_draw c) =? PUMP_OFF) eqn:E.
  - apply Z.eqb_eq in E. left. rewrite E. split; reflexivity.
  - apply Z.eqb_neq in E. right. split; [exact E | reflexivity].
Qed.

Lemma Counted_push (st d : Z) (v : Vars) :
  Counted v -> Counted (push st d v).
Proof.
  intros [Hid Hno]. unfold Counted, push. cbn [sample_id data].
  rewrite length_app, map_app, Hno. cbn [List.length map sample_no].
  rewrite Nat.add_1_r, ids_upto_snoc. split; [lia|].
  f_equal. f_equal. lia.
Qed.

Lemma Timed_push (now st d : Z) (v : Vars) :
  Timed now v -> gap_ok st d -> Timed now (push st d v).
Proof.
  intros [Hts Hsp] Hgap. unfold Timed, push. simpl. split.
  - rewrite last_ts_snoc. reflexivity.
  - apply spaced_snoc. split; [exact Hsp|]. simpl.
    rewrite <- Hts. replace (ts v + d - ts v) with d by lia. exact Hgap.
Qed.

Lemma Counted_step (c : Cycle) (v : Vars) :
  Counted v -> Counted (cycle_step c v).
Proof.
  intro H. unfold cycle_step.
  assert (H1 : Counted (on_phase c v)).
  { destruct (on_phase_cases c v) as [[_ ->]|[_ ->]];
      [apply Counted_push|]; exact H. }
  destruct (off_phase_cases c (on_phase c v)) as [[_ ->]|[_ ->]];
    [apply Counted_push|]; exact H1.
Qed.

Lemma Timed_step (now : Z) (c : Cycle) (v : Vars) :
  valid_cycle c -> Timed now v -> Timed now (cycle_step c v).
Proof.
  intros (_ & Hon & _ & Hoff) H. unfold cycle_step.
  assert (Hgon : gap_ok PUMP_ON (45 * 60 + on_delay c))
    by (unfold gap_ok; change (PUMP_ON =? PUMP_ON) with true; cbv iota; lia).
  assert (Hgoff : gap_ok PUMP_OFF (off_delay c))
    by (unfold gap_ok; change (PUMP_OFF =? PUMP_ON) with false; cbv iota; lia).
  assert (H1 : Timed now (on_phase c v)).
  { destruct (on_phase_cases c v) as [[_ ->]|[_ ->]];
      [apply Timed_push; [|exact Hgon]|]; exact H. }
  destruct (off_phase_cases c (on_phase c v)) as [[_ ->]|[_ ->]];
    [apply Timed_push; [|exact Hgoff]|]; exact H1.
Qed.

Lemma sample_id_step (c : Cycle) (v : Vars) :
  sample_id (cycle_step c v) = sample_id v + Z.of_nat (appended c).
Proof.
  unfold cycle_step, appended, on_phase, off_phase.
  destruct (gen_mainly_on (on_draw c) =? PUMP_ON);
    destruct (gen_mainly_off (off_draw c) =? PUMP_OFF); simpl; lia.
Qed.

(** What holds before the loop and is kept by its body holds after it, and
    then the counter has passed [length]. *)
Lemma loop_invariant (P : Vars -> Prop) (length : Z) (tape : list Cycle) :
  forall v v',
    (forall c w, In c tape -> P w -> P (cycle_step c w)) ->
    P v ->
    loop length tape v = Some v' ->
    P v' /\ length < sample_id v'.
Proof.
  induction tape as [|c tape IH]; intros v v' Hstep Hv Hloop; simpl in Hloop;
    destruct (sample_id v <=? length) eqn:E;
    try discriminate Hloop;
    try (injection Hloop as <-; split; [exact Hv | apply Z.leb_gt; exact E]).
  apply (IH (cycle_step c v) v'); [| |exact Hloop].
  - intros c' w Hin. apply Hstep. right. exact Hin.
  - apply Hstep; [left; reflexivity | exact Hv].
Qed.

(** The loop ends within the cycles given exactly when they append enough
    entries. *)
Lemma loop_returns (length : Z) (tape : list Cycle) :
  forall v,
    (exists v', loop length tape v = Some v') <->
    length < sample_id v + Z.of_nat (yield tape).
Proof.
  induction tape as [|c tape IH]; intro v; simpl;
    destruct (sample_id v <=? length) eqn:E.
  - apply Z.leb_le in E. split; [intros [v' H]; discriminate H | lia].
  - apply Z.leb_gt in E. split; [lia | intros _; eexists; reflexivity].
  - apply Z.leb_le in E. rewrite IH, sample_id_step. lia.
  - apply Z.leb_gt in E. split; [lia | intros _; eexists; reflexivity].
Qed.

(** ** The slice *)

Lemma slice_to_firstn {A : Type} (l : list A) (stop : Z) :
  exists k : nat, slice_to l stop = firstn k l.
Proof. unfold slice_to. destruct (0 <=? stop); eexists; reflexivity. Qed.

Lemma slice_to_length {A : Type} (l : list A) (stop : Z) :
  0 <= stop <= Z.of_nat (List.length l) ->
  Z.of_nat (List.length (slice_to l stop)) = stop.
Proof.
  intros [H0 Hle]. unfold slice_to.
  apply Z.leb_le in H0 as E. rewrite E.
  rewrite firstn_length_le by lia. lia.
Qed.

Lemma firstn_seq (k : nat) :
  forall start n, firstn k (seq start n) = seq start (Nat.min k n).
Proof.
  induction k as [|k IH]; intros start [|n]; try reflexivity.
  simpl. f_equal. apply IH.
Qed.

Lemma firstn_ids (k n : nat) :
  firstn k (ids_upto n) = ids_upto (Nat.min k n).
Proof. unfold ids_upto. rewrite firstn_map, firstn_seq. reflexivity. Qed.

Lemma spaced_firstn (k : nat) :
  forall prev l, spaced prev l -> spaced prev (firstn k l).
Proof.
  induction k as [|k IH]; intros prev [|e l] H; try exact I.
  destruct H as [Hg Hs]. simpl. split; [exact Hg | apply IH; exact Hs].
Qed.

Lemma gap_ok_nonneg (st gap : Z) : gap_ok st gap -> 0 <= gap.
Proof. unfold gap_ok. destruct (st =? PUMP_ON); lia. Qed.

Lemma spaced_sorted (l : list Sample) :
  forall prev,
    spaced prev l ->
    Sorted Z.le (map timestamp l) /\ HdRel Z.le prev (map timestamp l).
Proof.
  induction l as [|e l IH]; intros prev H; simpl.
  - split; constructor.
  - destruct H as [Hg Hs]. apply gap_ok_nonneg in Hg.
    destruct (IH _ Hs) as [Hsort Hhd].
    split; constructor; try assumption. lia.
Qed.

(** What a returned list is: the first [k] entries of the [data] of the
    loop, which counts its entries and times them. *)
Lemma gen_random_samples_inv (length now : Z) (tape : list Cycle) (out : list Sample) :
  gen_random_samples length now tape = Some out ->
  exists v,
    loop length tape (start now) = Some v /\
    out = slice_to (data v) length /\
    Counted v /\ length < sample_id v /\
    (Forall valid_cycle tape -> Timed now v).
Proof.
  unfold gen_random_samples.
  destruct (loop length tape (start now)) as [v|] eqn:E; [|discriminate].
  intro H. injection H as <-. exists v.
  split; [reflexivity|]. split; [reflexivity|].
  destruct (loop_invariant Counted length tape (start now) v) as [Hc Hlt];
    [intros; apply Counted_step; assumption | split; reflexivity | exact E |].
  split; [exact Hc|]. split; [exact Hlt|].
  intro Hvalid. rewrite Forall_forall in Hvalid.
  apply (loop_invariant (Timed now) length tape (start now) v);
    [intros; apply Timed_step; auto | split; [reflexivity | exact I] | exact E].
Qed.

Lemma loop_overshoot (length : Z) (tape : list Cycle) :
  forall v v',
    loop length tape v = Some v' ->
    sample_id v' <= Z.max (sample_id v) (length + 2).
Proof.
  induction tape as [|c tape IH]; intros v v' Hloop; simpl in Hloop;
    destruct (sample_id v <=? length) eqn:E;
    try discriminate Hloop; try (injection Hloop as <-; lia).
  apply Z.leb_le in E. apply IH in Hloop.
  rewrite sample_id_step in Hloop.
  assert (appended c <= 2)%nat.
  { unfold appended.
    destruct (gen_mainly_on (on_draw c) =? PUMP_ON);
      destruct (gen_mainly_off (off_draw c) =? PUMP_OFF); simpl; lia. }
  lia.
Qed.

Ltac valid_tape :=
  repeat (constructor; [unfold valid_cycle; simpl; repeat split; (lia || lra)|]);
  constructor.

(** ** The claims about the generator *)

(** C6.  For [length >= 0], a list returned by [gen_random_samples(length)]
    has exactly [length] entries: the loop leaves [length] or [length + 1]
    entries in [data] and the slice keeps the first [length].  The call
    returns as soon as the draws have let [length] entries through (a run in
    which every candidate is rejected for ever does not return), and for
    [length = 0] it returns the empty list without a draw. *)
Theorem gen_random_samples_length (length now : Z) (tape : list Cycle) :
  0 <= length ->
  (forall out,
      gen_random_samples length now tape = Some out ->
      Z.of_nat (List.length out) = length /\
      exists v,
        loop length tape (start now) = Some v /\
        out = firstn (Z.to_nat length) (data v) /\
        length <= Z.of_nat (List.length (data v)) <= length + 1) /\
  ((exists out, gen_random_samples length now tape = Some out) <->
   length <= Z.of_nat (yield tape)) /\
  gen_random_samples 0 now tape = Some [].
Proof.
  intro H0. split; [|split].
  - intros out Hout.
    destruct (gen_random_samples_inv _ _ _ _ Hout)
      as (v & Hloop & -> & [Hid _] & Hlt & _).
    pose proof (loop_overshoot _ _ _ _ Hloop) as Hover.
    change (sample_id (start now)) with 1 in Hover.
    split; [apply slice_to_length; lia|].
    exists v. split; [exact Hloop|]. split; [|lia].
    unfold slice_to. apply Z.leb_le in H0. rewrite H0. reflexivity.
  - unfold gen_random_samples.
    pose proof (loop_returns length tape (start now)) as Hr.
    change (sample_id (start now)) with 1 in Hr.
    split.
    + intros [out Hout].
      destruct (loop length tape (start now)) as [v|]; [|discriminate].
      assert (length < 1 + Z.of_nat (yield tape))
        by (apply Hr; eexists; reflexivity).
      lia.
    + intro Hy. destruct Hr as [_ Hr]. destruct Hr as [v Hv]; [lia|].
      rewrite Hv. eexists. reflexivity.
  - destruct tape; reflexivity.
Qed.

Lemma gen_random_samples_length_witness :
  let tape := [mkCycle 0.5 10 0.5 20; mkCycle 0.1 10 0.9 600;
               mkCycle 0.5 6000 0.5 0] in
  0 <= 3 /\
  gen_random_samples 3 1000 tape
  = Some [mkSample 3710 1 PUMP_ON; mkSample 3730 2 PUMP_OFF;
          mkSample 12430 3 PUMP_ON] /\
  Z.of_nat (List.length [mkSample 3710 1 PUMP_ON; mkSample 3730 2 PUMP_OFF;
                         mkSample 12430 3 PUMP_ON]) = 3.
Proof.
  intro tape.
  assert (H0 : 0 <= 3) by lia.
  destruct (gen_random_samples_length 3 1000 tape H0) as (H & _ & _).
  destruct (H _ eq_refl) as [Hlen _].
  exact (conj H0 (conj eq_refl Hlen)).
Defined.

(** C7.  In a list returned by [gen_random_samples] the timestamps never
    decrease from one entry to the next, none is before the start, and the
    identifiers are 1, 2, ..., one more at each entry: up to [length] when
    [length >= 0]. *)
Theorem gen_random_samples_monotone
  (length now : Z) (tape : list Cycle) (out : list Sample) :
  Forall valid_cycle tape ->
  gen_random_samples length now tape = Some out ->
  Sorted Z.le (map timestamp out) /\
  HdRel Z.le now (map timestamp out) /\
  map sample_no out = ids_upto (List.length out) /\
  (0 <= length -> map sample_no out = ids_upto (Z.to_nat length)).
Proof.
  intros Hvalid Hout.
  destruct (gen_random_samples_inv _ _ _ _ Hout)
    as (v & Hloop & -> & [Hid Hno] & Hlt & Htimed).
  destruct (Htimed Hvalid) as [_ Hsp].
  assert (Hids : map sample_no (slice_to (data v) length)
                 = ids_upto (List.length (slice_to (data v) length))).
  { destruct (slice_to_firstn (data v) length) as [k ->].
    rewrite <- firstn_map, Hno, firstn_ids, length_firstn. reflexivity. }
  destruct (slice_to_firstn (data v) length) as [k Hk].
  split; [|split; [|split]].
  - rewrite Hk. apply (spaced_sorted _ now). apply spaced_firstn. exact Hsp.
  - rewrite Hk. apply (spaced_sorted _ now). apply spaced_firstn. exact Hsp.
  - exact Hids.
  - intro H0. rewrite Hids. f_equal.
    apply Nat2Z.inj. rewrite slice_to_length by lia. lia.
Qed.

Lemma gen_random_samples_monotone_witness :
  let tape := [mkCycle 0.5 10 0.5 20; mkCycle 0.1 10 0.9 600;
               mkCycle 0.5 6000 0.5 0] in
  let out := [mkSample 3710 1 PUMP_ON; mkSample 3730 2 PUMP_OFF;
              mkSample 12430 3 PUMP_ON] in
  Forall valid_cycle tape /\
  gen_random_samples 3 1000 tape = Some out /\
  Sorted Z.le (map timestamp out) /\
  map sample_no out = [1; 2; 3].
Proof.
  intros tape out.
  assert (Hv : Forall valid_cycle tape) by valid_tape.
  destruct (gen_random_samples_monotone 3 1000 tape out Hv eq_refl)
    as (H1 & _ & H3 & _).
  exact (conj Hv (conj eq_refl (conj H1 H3))).
Defined.

(** C8, as the code has it.  In a list returned by [gen_random_samples]
    an ON entry lies at least 45 minutes after the entry before it (or the
    start), the delay beyond the 45 minutes being a [randint(0, 100 * 60)]:
    a whole number of seconds from 0 up to and including 6000; an OFF entry
    lies a [randint(0, 10 * 60)] after the entry before it (or the start):
    from 0 up to and including 600 seconds. *)
Theorem gen_random_samples_dwell
  (length now : Z) (tape : list Cycle) (out : list Sample) :
  Forall valid_cycle tape ->
  gen_random_samples length now tape = Some out ->
  spaced now out.
Proof.
  intros Hvalid Hout.
  destruct (gen_random_samples_inv _ _ _ _ Hout)
    as (v & _ & -> & _ & _ & Htimed).
  destruct (Htimed Hvalid) as [_ Hsp].
  destruct (slice_to_firstn (data v) length) as [k ->].
  apply spaced_firstn. exact Hsp.
Qed.

Lemma gen_random_samples_dwell_witness :
  let tape := [mkCycle 0.5 10 0.5 20; mkCycle 0.1 10 0.5 600] in
  let out := [mkSample 3710 1 PUMP_ON; mkSample 3730 2 PUMP_OFF;
              mkSample 4330 3 PUMP_OFF] in
  Forall valid_cycle tape /\
  gen_random_samples 3 1000 tape = Some out /\
  spaced 1000 out.
Proof.
  intros tape out.
  assert (Hv : Forall valid_cycle tape) by valid_tape.
  exact (conj Hv (conj eq_refl
           (gen_random_samples_dwell 3 1000 tape out Hv eq_refl))).
Defined.

(** C8 as stated fails at the upper ends of the two [randint] ranges: with
    the delays 6000 and 600 the ON entry comes 45 + 100 minutes after the
    start and the OFF entry exactly 10 minutes after the ON entry. *)
Lemma dwell_bounds_are_inclusive :
  let tape := [mkCycle 0.5 6000 0.5 600] in
  let out := [mkSample 8700 1 PUMP_ON; mkSample 9300 2 PUMP_OFF] in
  Forall valid_cycle tape /\
  gen_random_samples 2 0 tape = Some out /\
  timestamp (mkSample 9300 2 PUMP_OFF) - timestamp (mkSample 8700 1 PUMP_ON)
  = 10 * 60 /\
  ~ claimed_dwell 0 None out.
Proof.
  intros tape out.
  split; [valid_tape|]. split; [reflexivity|]. split; [reflexivity|].
  intro H. cbn in H. lia.
Qed.



(** C10.  The returned list need not alternate: there are draws, all within
    their ranges, and a length of at least 2 for which two entries next to
    each other have the same state.  Here the first cycle appends ON then
    OFF, and the second cycle, whose ON candidate is rejected and whose OFF
    candidate is accepted, appends OFF again. *)
Theorem samples_need_not_alternate :
  exists (length now : Z) (tape : list Cycle) (out : list Sample),
    2 <= length /\
    Forall valid_cycle tape /\
    gen_random_samples length now tape = Some out /\
    map state out = [PUMP_ON; PUMP_OFF; PUMP_OFF] /\
    has_repeat out.
Proof.
  exists 3, 0,
    [mkCycle 0.5 0 0.5 30; mkCycle 0.1 0 0.5 40],
    [mkSample 2700 1 PUMP_ON; mkSample 2730 2 PUMP_OFF;
     mkSample 2770 3 PUMP_OFF].
  split; [lia|]. split; [valid_tape|].
  split; [reflexivity|]. split; [reflexivity|].
  simpl. right. left. reflexivity.
Qed.

End SamplesSpec.

(** * Further properties of the monitor *)

Module PumpExtra.
Import Pump PumpSpec.

Lemma present_In (l : Logger) (ls : list (option Logger)) :
  In l (present ls) <-> In (Some l) ls.
Proof.
  induction ls as [|[x|] ls IH]; simpl.
  - tauto.
  - rewrite IH. split; intros [H|H]; auto; left; congruence.
  - rewrite IH. split; [auto | intros [H|H]; [discriminate H | exact H]].
Qed.

Lemma In_firstn {A : Type} (k : nat) :
  forall (l : list A) (x : A), In x (firstn k l) -> In x l.
Proof.
  induction k as [|k IH]; intros [|a l] x H; simpl in H; try contradiction.
  destruct H as [H|H]; [left; exact H | right; apply IH; exact H].
Qed.

Lemma event_pin (self : AbstractPump) (status : Z) (trace : list Call) :
  pin (pump (event self status trace)) = pin self.
Proof.
  unfold event. destruct (status_eqb status (prev_status self)); [reflexivity|].
  destruct (fan_out (loggers self) status trace) as [t [|]]; reflexivity.
Qed.

(** X1.  Processing readings never changes the list of registered loggers
    nor the pin, whatever the loggers do. *)
Theorem run_keeps_loggers_and_pin (readings : list Z) :
  forall self trace,
    loggers (final (run self readings trace)) = loggers self /\
    pin (final (run self readings trace)) = pin self.
Proof.
  induction readings as [|s rest IH]; intros self trace; cbn [run final].
  - split; reflexivity.
  - destruct (IH (pump (event self s trace)) (calls (event self s trace)))
      as [Hl Hp].
    rewrite Hl, Hp, event_loggers, event_pin. split; reflexivity.
Qed.

Lemma event_calls (self : AbstractPump) (status : Z) (trace : list Call) :
  exists new,
    calls (event self status trace) = trace ++ new /\
    Forall (fun c => exists l, In (Some l) (loggers self) /\
                               c = delivery status l) new.
Proof.
  unfold event. destruct (status_eqb status (prev_status self)).
  - exists []. split; [symmetry; apply app_nil_r | constructor].
  - destruct (fan_out_prefix (loggers self) status trace) as [k Hk].
    exists (map (delivery status) (firstn k (present (loggers self)))).
    split.
    + destruct (fan_out (loggers self) status trace) as [t [|]]; exact Hk.
    + apply Forall_forall. intros c Hc. apply in_map_iff in Hc.
      destruct Hc as (l & <- & Hl). exists l. split; [|reflexivity].
      apply present_In. apply (In_firstn _ _ _ Hl).
Qed.

(** X2.  A run only appends to the calls made before it, and every call it
    adds hands a one-element list, holding one of the readings, to a logger
    object of the session. *)
Theorem run_calls_are_deliveries (readings : list Z) :
  forall self trace,
    exists new,
      log (run self readings trace) = trace ++ new /\
      Forall (fun c => exists l s,
                  In (Some l) (loggers self) /\ In s readings /\
                  call_logger c = logger_id l /\ call_values c = [s]) new.
Proof.
  induction readings as [|s rest IH]; intros self trace; cbn [run log].
  - exists []. split; [symmetry; apply app_nil_r | constructor].
  - destruct (event_calls self s trace) as (n1 & Hc & Hn1).
    destruct (IH (pump (event self s trace)) (calls (event self s trace)))
      as (n2 & Hl & Hn2).
    exists (n1 ++ n2). split.
    + rewrite Hl, Hc, app_assoc. reflexivity.
    + apply Forall_app. split.
      * eapply Forall_impl; [|exact Hn1].
        intros c (l & Hin & ->). exists l, s.
        repeat split; [exact Hin | left; reflexivity].
      * eapply Forall_impl; [|exact Hn2].
        intros c (l & s' & Hin & Hs' & H1 & H2). exists l, s'.
        rewrite event_loggers in Hin.
        repeat split; [exact Hin | right; exact Hs' | exact H1 | exact H2].
Qed.

Lemma fan_out_raised (ls : list (option Logger)) :
  forall status trace trace',
    fan_out ls status trace = (trace', true) ->
    exists l pre,
      In (Some l) ls /\
      trace' = pre ++ [delivery status l] /\
      log_raises l pre [status] = true.
Proof.
  induction ls as [|[x|] ls IH]; intros status trace trace' H; simpl in H.
  - discriminate H.
  - destruct (log_raises x trace [status]) eqn:E.
    + injection H as <-. exists x, trace.
      split; [left; reflexivity|]. split; [reflexivity | exact E].
    + destruct (IH _ _ _ H) as (l & pre & Hin & Ht & Hr).
      exists l, pre. split; [right; exact Hin|]. split; assumption.
  - destruct (IH _ _ _ H) as (l & pre & Hin & Ht & Hr).
    exists l, pre. split; [right; exact Hin|]. split; assumption.
Qed.

(** X3.  [event] is left by an exception only when a registered logger
    raises, and the call that raised is the last one made: no logger after
    it in the list is called, and the session is as it was. *)
Theorem raise_comes_from_a_logger
  (self : AbstractPump) (status : Z) (trace : list Call) :
  outcome (event self status trace) = Raised ->
  pump (event self status trace) = self /\
  exists l pre,
    In (Some l) (loggers self) /\
    calls (event self status trace) = pre ++ [delivery status l] /\
    log_raises l pre [status] = true.
Proof.
  intro Ho. split; [apply event_raised; exact Ho|].
  unfold event in *.
  destruct (status_eqb status (prev_status self)); [discriminate Ho|].
  destruct (fan_out (loggers self) status trace) as [t [|]] eqn:E;
    [|discriminate Ho].
  apply fan_out_raised in E. exact E.
Qed.

Lemma raise_comes_from_a_logger_witness :
  let self := register_all (init 17)
                [Some (quiet 0); Some (broken 1); Some (quiet 2)] in
  outcome (event self PUMP_ON []) = Raised /\
  pump (event self PUMP_ON []) = self /\
  calls (event self PUMP_ON []) = [mkCall 0 [PUMP_ON]; mkCall 1 [PUMP_ON]].
Proof.
  intro self.
  destruct (raise_comes_from_a_logger self PUMP_ON [] eq_refl) as [H _].
  exact (conj eq_refl (conj H eq_refl)).
Defined.

(** X4.  A listener added after a status has been stored is not told that
    status: the same reading again is skipped without a call.  At the next
    change, when no logger raises, it is called after the loggers registered
    before it. *)
Theorem late_listener_waits_for_a_change
  (self : AbstractPump) (new_logger : Logger) (status next : Z)
  (trace : list Call) :
  prev_status self = Some status ->
  let self' := add_listener self (Some new_logger) in
  event self' status trace
  = {| pump := self'; calls := trace; outcome := Skipped |} /\
  (next <> status ->
   never_raise (loggers self') ->
   calls (event self' next trace)
   = trace ++ map (delivery next) (present (loggers self))
           ++ [delivery next new_logger]).
Proof.
  intros Hp self'. split.
  - apply event_same. exact Hp.
  - intros Hn Hnr. rewrite event_change; [|simpl; congruence | exact Hnr].
    cbn [calls]. unfold self', add_listener. cbn [loggers].
    rewrite present_app, map_app. reflexivity.
Qed.

Lemma late_listener_waits_for_a_change_witness :
  let self := {| loggers := [Some (quiet 0)]; pin := 17;
                 prev_status := Some PUMP_ON |} in
  let self' := add_listener self (Some (quiet 1)) in
  prev_status self = Some PUMP_ON /\
  PUMP_OFF <> PUMP_ON /\
  never_raise (loggers self') /\
  calls (event self' PUMP_ON []) = [] /\
  calls (event self' PUMP_OFF []) = [mkCall 0 [PUMP_OFF]; mkCall 1 [PUMP_OFF]].
Proof.
  intros self self'.
  assert (Hd : PUMP_OFF <> PUMP_ON) by discriminate.
  assert (Hnr : never_raise (loggers self')) by (simpl; quiet_loggers).
  destruct (late_listener_waits_for_a_change self (quiet 1) PUMP_ON PUMP_OFF
              [] eq_refl) as [H1 H2].
  exact (conj eq_refl (conj Hd (conj Hnr
           (conj (f_equal calls H1) (H2 Hd Hnr))))).
Defined.

(** X5.  Readings equal to the stored status change nothing, however many
    there are and whatever the loggers would do: no call is made and the
    session stays as it is. *)
Theorem repeated_reading_is_skipped
  (self : AbstractPump) (status : Z) (n : nat) (trace : list Call) :
  prev_status self = Some status ->
  run self (repeat status n) trace
  = {| final := self; log := trace; steps := repeat (status, Skipped) n |}.
Proof.
  intro Hp. induction n as [|n IH]; [reflexivity|].
  cbn [repeat run]. rewrite (event_same _ _ _ Hp). cbn [pump calls outcome].
  rewrite IH. reflexivity.
Qed.

Lemma repeated_reading_is_skipped_witness :
  let self := {| loggers := [Some (broken 0)]; pin := 17;
                 prev_status := Some PUMP_ON |} in
  prev_status self = Some PUMP_ON /\
  log (run self [PUMP_ON; PUMP_ON; PUMP_ON] []) = [].
Proof.
  intro self.
  exact (conj eq_refl
           (f_equal log (repeated_reading_is_skipped self PUMP_ON 3 [] eq_refl))).
Defined.

(** X6.  Without hardware every call of the callback reads -1.  On a new
    session whose loggers return, the first call hands [[-1]] to every
    logger object and the later calls do nothing: one pass, whatever the
    number of calls. *)
Theorem no_hardware_notifies_once
  (self : AbstractPump) (n : nat) (trace : list Call) :
  prev_status self = None ->
  never_raise (loggers self) ->
  let rr := run_default self (S n) trace in
  length (passes rr) = 1%nat /\
  log rr = trace ++ map (delivery (-1)) (present (loggers self)) /\
  prev_status (final rr) = Some (-1).
Proof.
  intros Hp Hnr rr. subst rr. unfold run_default, get_status.
  cbn [repeat run]. unfold passes. cbn [steps log final].
  rewrite (event_change self (-1) trace); [|rewrite Hp; discriminate | exact Hnr].
  cbn [pump calls outcome filter snd entered length].
  rewrite repeated_reading_is_skipped by reflexivity.
  cbn [steps log final prev_status].
  assert (Hf : filter (fun so : Z * Outcome => entered (snd so))
                      (repeat (-1, Skipped) n) = []).
  { induction n as [|k IH]; [reflexivity | exact IH]. }
  rewrite Hf. repeat split.
Qed.

Lemma no_hardware_notifies_once_witness :
  let self := register_all (init 17) [Some (quiet 0)] in
  prev_status self = None /\
  never_raise (loggers self) /\
  log (run_default self 4 []) = [mkCall 0 [-1]].
Proof.
  intro self.
  assert (Hnr : never_raise (loggers self)) by (simpl; quiet_loggers).
  destruct (no_hardware_notifies_once self 3 [] eq_refl Hnr) as (_ & H & _).
  exact (conj eq_refl (conj Hnr H)).
Defined.

(** X7.  After a run in which no call was left by an exception, the stored
    status is the last reading. *)
Theorem normal_run_stores_last_reading (readings : list Z) :
  forall self trace d,
    readings <> [] ->
    normal (run self readings trace) ->
    prev_status (final (run self readings trace)) = Some (last readings d).
Proof.
  induction readings as [|s rest IH]; intros self trace d Hne Hn;
    [contradiction Hne; reflexivity|].
  apply normal_cons in Hn. destruct Hn as [Ho Hn].
  cbn [run final].
  destruct rest as [|s' rest'].
  - cbn [run final last].
    destruct (status_eqb s (prev_status self)) eqn:E.
    + apply status_eqb_true in E. rewrite (event_same _ _ _ E). exact E.
    + apply status_eqb_false in E.
      rewrite (event_returned _ _ _ E Ho). reflexivity.
  - rewrite (IH _ _ d); [reflexivity | discriminate | exact Hn].
Qed.

Lemma normal_run_stores_last_reading_witness :
  let self := register_all (init 17) [Some (quiet 0)] in
  let readings := [PUMP_ON; PUMP_OFF; PUMP_OFF] in
  readings <> [] /\
  normal (run self readings []) /\
  prev_status (final (run self readings [])) = Some PUMP_OFF.
Proof.
  intros self readings.
  assert (Hne : readings <> []) by discriminate.
  assert (Hn : normal (run self readings []))
    by (repeat constructor; discriminate).
  exact (conj Hne (conj Hn
           (normal_run_stores_last_reading readings self [] 0 Hne Hn))).
Defined.

Lemma calls_to_rounds (i : nat) (ls : list Logger) (states : list Z) :
  calls_to i (flat_map (fun s => map (delivery s) ls) states)
  = (length states * length (filter (fun x => Nat.eqb (logger_id x) i) ls))%nat.
Proof.
  induction states as [|s states IH]; [reflexivity|].
  cbn [flat_map length]. rewrite calls_to_app, calls_to_deliveries, IH.
  reflexivity.
Qed.

(** X8.  In a run in which no call was left by an exception, a logger is
    called once per change of status for each of its registrations. *)
Theorem calls_per_logger
  (self : AbstractPump) (readings : list Z) (trace : list Call) (i : nat) :
  normal (run self readings trace) ->
  calls_to i (log (run self readings trace))
  = (calls_to i trace
     + count_changes (prev_status self) readings
       * registrations_of i (loggers self))%nat.
Proof.
  intro Hn. rewrite (run_log _ _ _ Hn), calls_to_app, calls_to_rounds.
  unfold fanned_states. rewrite length_map, (run_passes _ _ _ Hn).
  reflexivity.
Qed.

Lemma calls_per_logger_witness :
  let self := register_all (init 17)
                [Some (quiet 0); Some (quiet 1); Some (quiet 0)] in
  let readings := [PUMP_ON; PUMP_ON; PUMP_OFF; PUMP_ON] in
  normal (run self readings []) /\
  calls_to 0 (log (run self readings [])) = 6%nat.
Proof.
  intros self readings.
  assert (Hn : normal (run self readings []))
    by (repeat constructor; discriminate).
  exact (conj Hn (calls_per_logger self readings [] 0%nat Hn)).
Defined.

End PumpExtra.

(** * Further properties of the sample generator *)

Module SamplesExtra.
Import Samples SamplesSpec.

(** X9.  The two ends of the threshold, as the docstring of
    [gen_random_event] has them: with threshold 1 every draw gives PUMP_OFF,
    with threshold 0 every draw gives PUMP_ON; and lowering the threshold
    never turns a PUMP_ON into a PUMP_OFF. *)
Theorem threshold_ends (r : Q) :
  unit_draw r ->
  gen_random_event 1 r = PUMP_OFF /\
  gen_random_event 0 r = PUMP_ON /\
  (forall t t' : Q,
      (t' <= t)%Q ->
      gen_random_event t r = PUMP_ON -> gen_random_event t' r = PUMP_ON).
Proof.
  intros [H0 H1]. split; [|split].
  - apply gen_random_event_off. exact H1.
  - apply gen_random_event_on. exact H0.
  - intros t t' Hle Hon. apply gen_random_event_on in Hon.
    apply gen_random_event_on. lra.
Qed.

Lemma threshold_ends_witness :
  unit_draw 0.5 /\
  gen_random_event 1 0.5 = PUMP_OFF /\
  gen_random_event 0 0.5 = PUMP_ON.
Proof.
  assert (H : unit_draw 0.5) by (unfold unit_draw; lra).
  destruct (threshold_ends 0.5 H) as (H1 & H2 & _).
  exact (conj H (conj H1 H2)).
Defined.

(** X10.  For a [length] of 0 or less the loop is not entered: the result
    is the empty list and no draw is read, also for a negative [length],
    where the slice [data[:length]] is taken of the empty list. *)
Theorem no_samples_for_nonpositive_length
  (length now : Z) (tape : list Cycle) :
  length <= 0 ->
  gen_random_samples length now tape = Some [].
Proof.
  intro H. unfold gen_random_samples.
  assert (Hl : loop length tape (start now) = Some (start now)).
  { destruct tape; simpl;
      (destruct (1 <=? length) eqn:E; [apply Z.leb_le in E; lia | reflexivity]). }
  rewrite Hl. unfold slice_to. cbn [data start].
  destruct (0 <=? length); rewrite firstn_nil; reflexivity.
Qed.

Lemma no_samples_for_nonpositive_length_witness :
  -3 <= 0 /\
  gen_random_samples (-3) 1000 [mkCycle 0.5 10 0.5 20] = Some [].
Proof.
  assert (H : -3 <= 0) by lia.
  exact (conj H (no_samples_for_nonpositive_length (-3) 1000
                   [mkCycle 0.5 10 0.5 20] H)).
Defined.

Lemma cycle_step_extends (c : Cycle) (v : Vars) :
  exists extra, data (cycle_step c v) = data v ++ extra.
Proof.
  unfold cycle_step.
  destruct (on_phase_cases c v) as [[_ H1]|[_ H1]];
    destruct (off_phase_cases c (on_phase c v)) as [[_ H2]|[_ H2]];
    rewrite H2, ?H1; unfold push; cbn [data]; rewrite ?H1; cbn [data].
  - eexists. rewrite <- app_assoc. reflexivity.
  - eexists. reflexivity.
  - eexists. reflexivity.
  - exists []. symmetry. apply app_nil_r.
Qed.

Lemma loop_extends (length : Z) (tape : list Cycle) :
  forall v v',
    loop length tape v = Some v' ->
    exists extra, data v' = data v ++ extra.
Proof.
  induction tape as [|c tape IH]; intros v v' H; simpl in H;
    destruct (sample_id v <=? length);
    try discriminate H;
    try (injection H as <-; exists []; symmetry; apply app_nil_r).
  destruct (IH _ _ H) as [e2 H2].
  destruct (cycle_step_extends c v) as [e1 H1].
  exists (e1 ++ e2). rewrite H2, H1, app_assoc. reflexivity.
Qed.

Lemma loop_two_lengths (m n : Z) (tape : list Cycle) :
  m <= n ->
  forall v v1 v2,
    loop m tape v = Some v1 ->
    loop n tape v = Some v2 ->
    exists extra, data v2 = data v1 ++ extra.
Proof.
  intro Hmn. induction tape as [|c tape IH]; intros v v1 v2 H1 H2.
  - simpl in H1, H2.
    destruct (sample_id v <=? m); [discriminate H1|].
    destruct (sample_id v <=? n); [discriminate H2|].
    injection H1 as <-. injection H2 as <-.
    exists []. symmetry. apply app_nil_r.
  - cbn [loop] in H1.
    destruct (sample_id v <=? m) eqn:Em.
    + apply Z.leb_le in Em.
      cbn [loop] in H2.
      assert (En : (sample_id v <=? n) = true) by (apply Z.leb_le; lia).
      rewrite En in H2. exact (IH _ _ _ H1 H2).
    + injection H1 as <-. exact (loop_extends _ _ _ _ H2).
Qed.

(** X11.  With the same draws, the list for a smaller [length] is the
    beginning of the list for a larger one. *)
Theorem shorter_request_is_a_prefix
  (m n now : Z) (tape : list Cycle) (out_m out_n : list Sample) :
  0 <= m <= n ->
  gen_random_samples m now tape = Some out_m ->
  gen_random_samples n now tape = Some out_n ->
  out_m = firstn (Z.to_nat m) out_n.
Proof.
  intros [H0 Hmn] Hm Hn.
  destruct (gen_random_samples_inv _ _ _ _ Hm)
    as (v1 & Hl1 & -> & [Hid1 _] & Hlt1 & _).
  destruct (gen_random_samples_inv _ _ _ _ Hn)
    as (v2 & Hl2 & -> & _ & _ & _).
  destruct (loop_two_lengths m n tape Hmn _ _ _ Hl1 Hl2) as [extra He].
  unfold slice_to.
  assert (E0 : (0 <=? m) = true) by (apply Z.leb_le; lia).
  assert (E1 : (0 <=? n) = true) by (apply Z.leb_le; lia).
  rewrite E0, E1, firstn_firstn, He.
  replace (Nat.min (Z.to_nat m) (Z.to_nat n)) with (Z.to_nat m) by lia.
  rewrite firstn_app.
  replace (Z.to_nat m - List.length (data v1))%nat with 0%nat by lia.
  rewrite firstn_O, app_nil_r. reflexivity.
Qed.

Lemma shorter_request_is_a_prefix_witness :
  let tape := [mkCycle 0.5 10 0.5 20; mkCycle 0.1 10 0.5 600;
               mkCycle 0.5 6000 0.9 0] in
  0 <= 1 <= 4 /\
  gen_random_samples 1 1000 tape = Some [mkSample 3710 1 PUMP_ON] /\
  gen_random_samples 4 1000 tape
  = Some [mkSample 3710 1 PUMP_ON; mkSample 3730 2 PUMP_OFF;
          mkSample 4330 3 PUMP_OFF; mkSample 13030 4 PUMP_ON] /\
  [mkSample 3710 1 PUMP_ON]
  = firstn 1 [mkSample 3710 1 PUMP_ON; mkSample 3730 2 PUMP_OFF;
              mkSample 4330 3 PUMP_OFF; mkSample 13030 4 PUMP_ON].
Proof.
  intro tape.
  assert (H : 0 <= 1 <= 4) by lia.
  exact (conj H (conj eq_refl (conj eq_refl
           (shorter_request_is_a_prefix 1 4 1000 tape _ _ H eq_refl eq_refl)))).
Defined.

Lemma push_shift (d st x : Z) (v : Vars) :
  push st x (shift_vars d v) = shift_vars d (push st x v).
Proof.
  unfold push, shift_vars. cbn [ts sample_id data].
  rewrite map_app. cbn [map]. unfold shift at 2. cbn [timestamp sample_no state].
  replace (ts v + d + x) with (ts v + x + d) by lia. reflexivity.
Qed.

Lemma cycle_step_shift (d : Z) (c : Cycle) (v : Vars) :
  cycle_step c (shift_vars d v) = shift_vars d (cycle_step c v).
Proof.
  unfold cycle_step.
  assert (H1 : on_phase c (shift_vars d v) = shift_vars d (on_phase c v)).
  { destruct (on_phase_cases c v) as [[E ->]|[E ->]];
      destruct (on_phase_cases c (shift_vars d v)) as [[E' ->]|[E' ->]];
      try reflexivity; try contradiction. apply push_shift. }
  rewrite H1.
  destruct (off_phase_cases c (on_phase c v)) as [[E ->]|[E ->]];
    destruct (off_phase_cases c (shift_vars d (on_phase c v)))
      as [[E' ->]|[E' ->]];
    try reflexivity; try contradiction. apply push_shift.
Qed.

Lemma loop_shift (d length : Z) (tape : list Cycle) :
  forall v,
    loop length tape (shift_vars d v)
    = option_map (shift_vars d) (loop length tape v).
Proof.
  induction tape as [|c tape IH]; intro v; cbn [loop];
    change (sample_id (shift_vars d v)) with (sample_id v);
    destruct (sample_id v <=? length); try reflexivity.
  rewrite cycle_step_shift. apply IH.
Qed.

(** X12.  The start instant enters the result only as an offset: started
    [d] seconds later with the same draws, the generator returns the same
    entries, each [d] seconds later. *)
Theorem start_instant_is_an_offset
  (length now d : Z) (tape : list Cycle) :
  gen_random_samples length (now + d) tape
  = option_map (map (shift d)) (gen_random_samples length now tape).
Proof.
  unfold gen_random_samples.
  change (start (now + d)) with (shift_vars d (start now)).
  rewrite loop_shift.
  destruct (loop length tape (start now)) as [v|]; [|reflexivity].
  cbn [option_map shift_vars data]. unfold slice_to.
  rewrite length_map.
  destruct (0 <=? length); rewrite firstn_map; reflexivity.
Qed.

Lemma spaced_span (l : list Sample) :
  forall prev k e,
    spaced prev l ->
    nth_error l k = Some e ->
    prev <= timestamp e <= prev + (Z.of_nat k + 1) * (145 * 60) /\
    (state e = PUMP_ON -> prev + 45 * 60 <= timestamp e).
Proof.
  induction l as [|a l IH]; intros prev k e Hsp Hk.
  - destruct k; discriminate Hk.
  - destruct Hsp as [Hg Hsp]. destruct k as [|k].
    + injection Hk as <-. unfold gap_ok in Hg.
      destruct (state a =? PUMP_ON) eqn:E.
      * split; [lia | intros _; lia].
      * apply Z.eqb_neq in E. split; [lia | intro; contradiction].
    + cbn [nth_error] in Hk. destruct (IH _ _ _ Hsp Hk) as [Hb Hon].
      pose proof (gap_ok_nonneg _ _ Hg) as H0.
      assert (timestamp a - prev <= 145 * 60)
        by (unfold gap_ok in Hg; destruct (state a =? PUMP_ON); lia).
      split; [lia | intro Hs; specialize (Hon Hs); lia].
Qed.

(** X13.  How far the entries reach: the entry at position [k] (from 0)
    lies at or after the start and at most [(k + 1) * 145] minutes after
    it, and an ON entry lies at least 45 minutes after the start. *)
Theorem samples_span
  (length now : Z) (tape : list Cycle) (out : list Sample)
  (k : nat) (e : Sample) :
  Forall valid_cycle tape ->
  gen_random_samples length now tape = Some out ->
  nth_error out k = Some e ->
  now <= timestamp e <= now + (Z.of_nat k + 1) * (145 * 60) /\
  (state e = PUMP_ON -> now + 45 * 60 <= timestamp e).
Proof.
  intros Hvalid Hout Hk.
  destruct (gen_random_samples_inv _ _ _ _ Hout)
    as (v & _ & -> & _ & _ & Htimed).
  destruct (Htimed Hvalid) as [_ Hsp].
  destruct (slice_to_firstn (data v) length) as [j Hj]. rewrite Hj in Hk.
  apply (spaced_span (firstn j (data v))); [|exact Hk].
  apply spaced_firstn. exact Hsp.
Qed.

Lemma samples_span_witness :
  let tape := [mkCycle 0.5 10 0.5 20; mkCycle 0.1 10 0.5 600] in
  let out := [mkSample 3710 1 PUMP_ON; mkSample 3730 2 PUMP_OFF;
              mkSample 4330 3 PUMP_OFF] in
  Forall valid_cycle tape /\
  gen_random_samples 3 1000 tape = Some out /\
  nth_error out 2 = Some (mkSample 4330 3 PUMP_OFF) /\
  1000 <= 4330 <= 1000 + (Z.of_nat 2 + 1) * (145 * 60).
Proof.
  intros tape out.
  assert (Hv : Forall valid_cycle tape) by valid_tape.
  destruct (samples_span 3 1000 tape out 2 (mkSample 4330 3 PUMP_OFF)
              Hv eq_refl eq_refl) as [H _].
  exact (conj Hv (conj eq_refl (conj eq_refl H))).
Defined.

Lemma cycle_step_states (c : Cycle) (v : Vars) :
  Forall (fun e => state e = PUMP_ON \/ state e = PUMP_OFF) (data v) ->
  Forall (fun e => state e = PUMP_ON \/ state e = PUMP_OFF)
         (data (cycle_step c v)).
Proof.
  intro H. unfold cycle_step.
  assert (H1 : Forall (fun e => state e = PUMP_ON \/ state e = PUMP_OFF)
                      (data (on_phase c v))).
  { destruct (on_phase_cases c v) as [[_ ->]|[_ ->]]; [|exact H].
    unfold push. cbn [data]. apply Forall_app. split; [exact H|].
    constructor; [left; reflexivity | constructor]. }
  destruct (off_phase_cases c (on_phase c v)) as [[_ ->]|[_ ->]]; [|exact H1].
  unfold push. cbn [data]. apply Forall_app. split; [exact H1|].
  constructor; [right; reflexivity | constructor].
Qed.

Lemma Forall_firstn {A : Type} (P : A -> Prop) (k : nat) :
  forall l, Forall P l -> Forall P (firstn k l).
Proof.
  induction k as [|k IH]; intros l H; [constructor|].
  destruct H as [|a l Ha Hl]; [constructor|].
  cbn [firstn]. constructor; [exact Ha | apply IH; exact Hl].
Qed.

(** X14.  Every entry of a returned list carries PUMP_ON or PUMP_OFF, the
    0/1 of the docstring, whatever the draws. *)
Theorem samples_states_are_on_or_off
  (length now : Z) (tape : list Cycle) (out : list Sample) :
  gen_random_samples length now tape = Some out ->
  Forall (fun e => state e = PUMP_ON \/ state e = PUMP_OFF) out.
Proof.
  unfold gen_random_samples.
  destruct (loop length tape (start now)) as [v|] eqn:E; [|discriminate].
  intro H. injection H as <-.
  destruct (loop_invariant
              (fun w => Forall (fun e => state e = PUMP_ON \/ state e = PUMP_OFF)
                               (data w))
              length tape (start now) v) as [Hs _];
    [intros; apply cycle_step_states; assumption | constructor | exact E |].
  destruct (slice_to_firstn (data v) length) as [k ->].
  apply Forall_firstn. exact Hs.
Qed.

Lemma samples_states_are_on_or_off_witness :
  gen_random_samples 2 1000 [mkCycle 0.5 10 0.5 20]
  = Some [mkSample 3710 1 PUMP_ON; mkSample 3730 2 PUMP_OFF] /\
  Forall (fun e => state e = PUMP_ON \/ state e = PUMP_OFF)
         [mkSample 3710 1 PUMP_ON; mkSample 3730 2 PUMP_OFF].
Proof.
  exact (conj eq_refl
           (samples_states_are_on_or_off 2 1000 [mkCycle 0.5 10 0.5 20] _
              eq_refl)).
Defined.

End SamplesExtra.

(** * Properties of the set-up of the main program *)

Module MainExtra.
Import Stdlib.Strings.String.
Import Main.
Local Open Scope string_scope.

(** X15.  The main program always has a logger to register: the list holds
    one or two loggers, the first is the ThingSpeak logger when an API key
    is given and the console logger when the key is missing or empty, never
    both; a HealthChecks logger is there exactly when a non-empty URL is
    given, and then it comes last. *)
Theorem all_loggers_shape (args : Args) :
  exists first rest,
    all_loggers args = first :: rest /\
    (first = ConsoleLogger <-> truthy (thing_speak_api args) = false) /\
    (truthy (thing_speak_api args) = true ->
       first = ThingSpeak (text (thing_speak_api args))) /\
    (rest = [] <-> truthy (healthchecks_url args) = false) /\
    (truthy (healthchecks_url args) = true ->
       rest = [HealthChecks (text (healthchecks_url args))]) /\
    is_health_checks first = false.
Proof.
  unfold all_loggers.
  destruct (truthy (thing_speak_api args)) eqn:E1;
    destruct (truthy (healthchecks_url args)) eqn:E2;
    eexists; eexists; (split; [reflexivity|]);
    repeat split; intros; try reflexivity; try discriminate; try congruence.
Qed.

(** X16.  For every value of [--gpio] that [argparse] lets through, the main
    program has a pump monitor to register the loggers with: [pump] is never
    left [None].  Without the option it is the monitor without hardware, on
    the given pin, with no logger and no status yet. *)
Theorem a_pump_is_always_created (args : Args) :
  accepted_gpio_lib (gpio_lib args) ->
  (exists p, create_pump args = Some p) /\
  (gpio_lib args = None ->
     create_pump args
     = Some (NoHardware {| Pump.loggers := []; Pump.pin := gpio_pin args;
                           Pump.prev_status := None |})).
Proof.
  unfold create_pump. intros [H|[H|H]]; rewrite H; cbn; split;
    try (eexists; reflexivity); try reflexivity; discriminate.
Qed.

Lemma a_pump_is_always_created_witness :
  accepted_gpio_lib (gpio_lib (mkArgs 17 None None (Some "wiringpi"))) /\
  exists p, create_pump (mkArgs 17 None None (Some "wiringpi")) = Some p.
Proof.
  assert (H : accepted_gpio_lib (gpio_lib (mkArgs 17 None None (Some "wiringpi"))))
    by (right; right; reflexivity).
  exact (conj H (proj1 (a_pump_is_always_created _ H))).
Defined.

End MainExtra.
